(** * hadoopy._hdfs: HDFS helpers, [writetb] and the multiplexed reader [readtb]

    A shallow embedding of [src/hadoopy/_hdfs.py].

    - Shell commands are run by an environment ([World]): the outcome of a
      command that is run to completion is a function of its text.
    - Python exceptions are values of [exn]; a fallible call returns
      [A + exn] ([inr] is the exception).
    - Generators ([_path_gen], [readtb]) are explicit state machines: the
      generator object is its suspended state, and [next] resumes it.
    - Effects on the outside world are recorded as a list of [event]s.
    - [num_procs] is a count, a [nat]: on a negative [int] Python's [range]
      is empty, as on 0.
    - The module global [_USER_HOME_DIR] is passed to [abspath] and handed
      back by it, and the working directory of the process is an argument;
      [posixpath]'s [join], [normpath] and [abspath] are written out. *)

From stdpp Require Import base gmap sets list strings.
From Stdlib Require Import Ascii ZArith Lia.

(** ** Python exceptions and results *)

Inductive exn : Type :=
  | IOError (msg : string)
  | IndexError
  | KeyError.

Abbreviation res A := (sum A exn).

Definition ret {A} (a : A) : res A := inl a.
Definition raise {A} (e : exn) : res A := inr e.

(** ** Python string helpers used by the module *)

(** [s.split(c)] for a one-character separator. *)
Fixpoint split_on (c : ascii) (s : string) : list string :=
  match s with
  | EmptyString => [EmptyString]
  | String a s' =>
      if Ascii.eqb a c then EmptyString :: split_on c s'
      else match split_on c s' with
           | h :: t => String a h :: t
           | [] => [String a EmptyString]
           end
  end.

(** [l[-1]] on a list of strings known to be non-empty. *)
Definition last_str (l : list string) : string := List.last l EmptyString.

Definition rev_chars (s : string) : list ascii := rev (String.list_ascii_of_string s).

Fixpoint strip_prefix (p l : list ascii) : option (list ascii) :=
  match p with
  | [] => Some l
  | a :: p' =>
      match l with
      | b :: l' => if Ascii.eqb a b then strip_prefix p' l' else None
      | [] => None
      end
  end.

Definition is_digit (a : ascii) : bool :=
  let n := nat_of_ascii a in (48 <=? n)%nat && (n <=? 57)%nat.

Fixpoint drop_digits (l : list ascii) : nat * list ascii :=
  match l with
  | a :: l' =>
      if is_digit a then let '(n, r) := drop_digits l' in (S n, r) else (0%nat, l)
  | [] => (0%nat, [])
  end.

(** [re.search('Found [0-9]+ items$', x)] on a line [x] without a newline:
    [x] ends with "Found ", one or more digits and " items".  The line is
    read backwards. *)
Definition found_line (x : string) : bool :=
  match strip_prefix (rev_chars " items") (rev_chars x) with
  | None => false
  | Some y =>
      let '(n, z) := drop_digits y in
      match n with
      | O => false
      | S _ =>
          match strip_prefix (rev_chars "Found ") z with
          | Some _ => true
          | None => false
          end
      end
  end.

(** [os.path.basename]: what follows the last slash. *)
Definition basename (p : string) : string := last_str (split_on "/"%char p).

(** ** The environment *)

(** What [p.communicate()] / [p.returncode] give for a finished command. *)
Record proc_result : Type := ProcResult {
  rcode : Z;
  p_stdout : string;
  p_stderr : string;
}.

Definition fd : Type := nat.

Section Hdfs.

(** Records are opaque key/value pairs. *)
Context {record : Type}.

(** The loader subprocess of [writetb], as seen by its parent: [l_quit] is
    the number of [poll()] calls that still find it running ([None]: it runs
    until its input is closed). *)
Record loader : Type := Loader {
  l_quit : option nat;
  l_rcode : Z;
  l_stdout : string;
  l_stderr : string;
}.

(** Modelled from the spec: what [_hdfs.py] uses and is not under src/.
    [hadoopy._runner._find_hstreaming] gives the path of the streaming jar
    (a discovery step, out of scope).  [hadoopy.TypedBytesFile] is the
    RecordCodec: opened for reading on a pipe, its [next()] decodes the next
    record or signals end-of-stream, so a decoder is the list of records
    still to come; opened for writing, [write] encodes one record into the
    pipe, [flush] flushes it and leaving its [with] block closes it.  The
    external commands themselves are the cluster's. *)
Record World : Type := MkWorld {
  (** [_find_hstreaming()] *)
  hstreaming : string;
  (** outcome of a command run to completion with both outputs piped *)
  run_cmd : string -> proc_result;
  (** the records a dump command writes on its pipe, as its decoder hands
      them over, and its exit status *)
  dump_stream : string -> list record;
  dump_rcode : string -> Z;
  (** the loader started by a load command *)
  load_proc : string -> loader;
  (** [select.select(read_fds, [], [])[0]]: the [n]-th call, on the
      descriptors given *)
  select : nat -> list fd -> list fd;
}.

(** ** [_hadoop_fs_command], [_checked_hadoop_fs_command], [ls] *)

(** [Popen] with [shell=True]: the handle is identified by its command; the
    [HADOOP_OPTS] override does not influence control flow. *)
Definition _hadoop_fs_command (cmd : string) : string := cmd.

Definition _checked_hadoop_fs_command (w : World) (cmd : string)
  : res (Z * string * string) :=
  let p := _hadoop_fs_command cmd in
  let r := run_cmd w p in
  let '(stdout, stderr) := (p_stdout r, p_stderr r) in
  let rcode := rcode r in
  if negb (rcode =? 0)%Z
  then raise (IOError ("Ran[" +:+ cmd +:+ "]: " +:+ stderr))
  else ret (rcode, stdout, stderr).

Definition ls (w : World) (path : string) : res (list string) :=
  match _checked_hadoop_fs_command w ("hadoop fs -ls " +:+ path) with
  | inr e => raise e
  | inl (_, stdout, _) =>
      ret (map (fun x => last_str (split_on " "%char x))
             (List.filter (fun x => negb (String.eqb x "") && negb (found_line x))
                (split_on "010"%char stdout)))
  end.

(** ** [writetb] *)

Inductive wevent : Type :=
  | WSpawn (cmd : string)        (** the loader is started on the pipe *)
  | WPoll (r : option Z)         (** [p.poll()] and what it returned *)
  | WWrite (kv : record)         (** [tb_fp.write(kv)] *)
  | WFlush                       (** [tb_fp.flush()] *)
  | WClose                       (** the [with] block closes [tb_fp] *)
  | WCommunicate                 (** [p.communicate()] *)
  | WWait (rc : Z).              (** [p.wait()] and the exit status *)

(** [p.poll()], the [n]-th call: [None] while the loader runs. *)
Definition poll (l : loader) (n : nat) : option Z :=
  match l_quit l with
  | Some q => if (n <? q)%nat then None else Some (l_rcode l)
  | None => None
  end.

Definition quit_msg (l : loader) : string :=
  "Child process quit while we were sending it data. STDOUT[" +:+ l_stdout l
  +:+ "] STDERR[" +:+ l_stderr l +:+ "]".

(** [for kv in kvs: ...], [n] polls having been made. *)
Fixpoint write_loop (l : loader) (n : nat) (kvs : list record)
  : res unit * list wevent :=
  match kvs with
  | [] => (ret tt, [])
  | kv :: kvs' =>
      match poll l n with
      | Some rc => (raise (IOError (quit_msg l)), [WPoll (Some rc); WCommunicate])
      | None =>
          let '(r, evs) := write_loop l (S n) kvs' in
          (r, WPoll None :: WWrite kv :: evs)
      end
  end.

(** Leaving the [with] block closes the [hadoopy.TypedBytesFile] (see
    [World]), on the normal path and when the loop raises. *)
Definition writetb (w : World) (path : string) (kvs : list record)
  : res unit * list wevent :=
  let cmd := "hadoop jar " +:+ hstreaming w +:+ " loadtb " +:+ path in
  let p := load_proc w (_hadoop_fs_command cmd) in
  match write_loop p 0 kvs with
  | (inl _, evs) => (ret tt, WSpawn cmd :: evs ++ [WFlush; WClose; WWait (l_rcode p)])
  | (inr e, evs) => (raise e, WSpawn cmd :: evs ++ [WClose])
  end.

(** ** [readtb] *)

Inductive event : Type :=
  | EvLs (root : string)            (** [ls(root_path)] was run *)
  | EvSpawn (f : fd) (path : string) (** [_open_tb(path)]: dump process on pipe [f] *)
  | EvYield (f : fd) (r : record)   (** a record of pipe [f] handed to the caller *)
  | EvWait (f : fd) (rc : Z).       (** [p.wait()] on the process of pipe [f] *)

(** The [paths] argument: one string or several. *)
Inductive paths_arg : Type :=
  | PathStr (s : string)
  | PathList (l : list string).

(** [if isinstance(paths, str): paths = [paths]] *)
Definition norm_paths (paths : paths_arg) : list string :=
  match paths with
  | PathStr s => [s]
  | PathList l => l
  end.

(** The suspended [_path_gen]: what is left of [all_paths] in the inner loop
    and of [paths] in the outer one. *)
Record pg : Type := PG {
  pg_cur : list string;
  pg_roots : list string;
}.

(** The variables of [readtb] that change.  Descriptors are named in the
    order [os.pipe()] hands them out; [nselect] counts the calls of
    [select]. *)
Record state : Type := State {
  read_fds : gset fd;
  procs : gmap fd string;
  tb_fps : gmap fd (list record);
  path_gen : option pg;
  next_fd : fd;
  nselect : nat;
}.

Definition set_path_gen (g : option pg) (st : state) : state :=
  State (read_fds st) (procs st) (tb_fps st) g (next_fd st) (nselect st).

Definition dump_cmd (w : World) (cur_path : string) : string :=
  "hadoop jar " +:+ hstreaming w +:+ " dumptb " +:+ cur_path.

Definition _open_tb (w : World) (cur_path : string) (st : state) : state :=
  let cmd := dump_cmd w cur_path in
  let read_fd := next_fd st in
  let p := _hadoop_fs_command cmd in
  State ({[read_fd]} ∪ read_fds st)
        (<[read_fd := p]> (procs st))
        (<[read_fd := dump_stream w p]> (tb_fps st))
        (path_gen st) (S read_fd) (nselect st).

(** [keep_file = lambda x: os.path.basename(x)[0] != '_'] *)
Definition keep_file (x : string) : res bool :=
  match basename x with
  | EmptyString => raise IndexError
  | String c _ => ret (negb (Ascii.eqb c "_"%char))
  end.

(** [filter(keep_file, all_paths)] *)
Fixpoint filter_keep (all_paths : list string) : res (list string) :=
  match all_paths with
  | [] => ret []
  | x :: rest =>
      match keep_file x with
      | inr e => raise e
      | inl b =>
          match filter_keep rest with
          | inr e => raise e
          | inl l => ret (if b then x :: l else l)
          end
      end
  end.

(** The body of the outer loop of [_path_gen] up to the inner loop: the
    paths of one root. *)
Definition root_paths (w : World) (ignore_logs : bool) (root_path : string)
  : res (list string) :=
  match ls w root_path with
  | inr _ => raise (IOError ("No such file or directory: '" +:+ root_path +:+ "'"))
  | inl all_paths => if ignore_logs then filter_keep all_paths else ret all_paths
  end.

Inductive pg_reply : Type :=
  | PgYield (g : pg) (st : state) (evs : list event)
  | PgStop (evs : list event)
  | PgRaise (e : exn) (evs : list event).

Definition pg_cons (ev : event) (r : pg_reply) : pg_reply :=
  match r with
  | PgYield g st evs => PgYield g st (ev :: evs)
  | PgStop evs => PgStop (ev :: evs)
  | PgRaise e evs => PgRaise e (ev :: evs)
  end.

(** [_path_gen] resumed with its inner loop exhausted. *)
Fixpoint pg_roots_next (w : World) (ignore_logs : bool) (roots : list string)
    (st : state) : pg_reply :=
  match roots with
  | [] => PgStop []
  | root_path :: roots' =>
      match root_paths w ignore_logs root_path with
      | inr e => PgRaise e [EvLs root_path]
      | inl [] => pg_cons (EvLs root_path) (pg_roots_next w ignore_logs roots' st)
      | inl (cur_path :: rest) =>
          PgYield (PG rest roots') (_open_tb w cur_path st)
                  [EvLs root_path; EvSpawn (next_fd st) cur_path]
      end
  end.

(** [_path_gen]: [path_gen.next()] on the generator object [g]. *)
Definition _path_gen_next (w : World) (ignore_logs : bool) (g : pg) (st : state)
  : pg_reply :=
  match pg_cur g with
  | cur_path :: rest =>
      PgYield (PG rest (pg_roots g)) (_open_tb w cur_path st)
              [EvSpawn (next_fd st) cur_path]
  | [] => pg_roots_next w ignore_logs (pg_roots g) st
  end.

(** [try: path_gen.next() except (AttributeError, StopIteration): path_gen = None] *)
Definition advance (w : World) (ignore_logs : bool) (st : state)
  : res state * list event :=
  match path_gen st with
  | None => (ret (set_path_gen None st), [])
  | Some g =>
      match _path_gen_next w ignore_logs g st with
      | PgYield g' st' evs => (ret (set_path_gen (Some g') st'), evs)
      | PgStop evs => (ret (set_path_gen None st), evs)
      | PgRaise e evs => (raise e, evs)
      end
  end.

(** Where the body of [readtb] stands. *)
Inductive control : Type :=
  | PStart                     (** generator created, body not entered *)
  | PFill (k : nat)            (** [for x in range(num_procs)], [k] rounds left *)
  | PWhile                     (** at the test of [while read_fds] *)
  | PFor (cur_fds : list fd)   (** in [for read_fd in cur_fds], these are left *)
  | PDone (e : option exn).    (** returned, or raised [e] *)

Definition config : Type := control * state.

Definition empty_state : state := State ∅ ∅ ∅ None 0%nat 0%nat.

(** Calling [readtb] only creates the generator. *)
Definition readtb (paths : paths_arg) (ignore_logs : bool) (num_procs : nat)
  : config * list event :=
  ((PStart, empty_state), []).

(** [p.wait(); del procs[read_fd]; del tb_fps[read_fd]; read_fds.remove(read_fd)] *)
Definition retire (read_fd : fd) (st : state) : state :=
  State (read_fds st ∖ {[read_fd]}) (delete read_fd (procs st))
        (delete read_fd (tb_fps st)) (path_gen st) (next_fd st) (nselect st).

Definition set_decoder (read_fd : fd) (recs : list record) (st : state) : state :=
  State (read_fds st) (procs st) (<[read_fd := recs]> (tb_fps st))
        (path_gen st) (next_fd st) (nselect st).

Definition tick_select (st : state) : state :=
  State (read_fds st) (procs st) (tb_fps st) (path_gen st) (next_fd st)
        (S (nselect st)).

Section Body.

Variable w : World.
Variable paths : paths_arg.
Variable ignore_logs : bool.
Variable num_procs : nat.

(** One round of the loop the body of [readtb] stands in. *)
Definition step (c : config) : config * list event :=
  let '(ctl, st) := c in
  match ctl with
  | PStart =>
      ((PFill num_procs, set_path_gen (Some (PG [] (norm_paths paths))) st), [])
  | PFill O => ((PWhile, st), [])
  | PFill (S k) =>
      match advance w ignore_logs st with
      | (inl st', evs) => ((PFill k, st'), evs)
      | (inr e, evs) => ((PDone (Some e), st), evs)
      end
  | PWhile =>
      if decide (read_fds st = ∅) then ((PDone None, st), [])
      else ((PFor (select w (nselect st) (elements (read_fds st))),
             tick_select st), [])
  | PFor [] => ((PWhile, st), [])
  | PFor (read_fd :: rest) =>
      match procs st !! read_fd with
      | None => ((PDone (Some KeyError), st), [])
      | Some p =>
          match tb_fps st !! read_fd with
          | None => ((PDone (Some KeyError), st), [])
          | Some (r :: recs) =>
              ((PFor rest, set_decoder read_fd recs st), [EvYield read_fd r])
          | Some [] =>
              if decide (read_fd ∈ read_fds st) then
                let st1 := retire read_fd st in
                let ev := EvWait read_fd (dump_rcode w p) in
                match advance w ignore_logs st1 with
                | (inl st2, evs) => ((PFor rest, st2), ev :: evs)
                | (inr e, evs) => ((PDone (Some e), st1), ev :: evs)
                end
              else ((PDone (Some KeyError),
                     State (read_fds st) (delete read_fd (procs st))
                           (delete read_fd (tb_fps st)) (path_gen st)
                           (next_fd st) (nselect st)),
                    [EvWait read_fd (dump_rcode w p)])
          end
      end
  | PDone e => ((PDone e, st), [])
  end.

(** [n] rounds, with what they did. *)
Fixpoint steps (n : nat) (c : config) : config * list event :=
  match n with
  | O => (c, [])
  | S n' =>
      let '(c1, evs1) := step c in
      let '(c2, evs2) := steps n' c1 in
      (c2, evs1 ++ evs2)
  end.

(** What [next()] on the generator gives. *)
Inductive reply : Type :=
  | Value (r : record)
  | StopIteration
  | Raise (e : exn).

Definition yielded (evs : list event) : option record :=
  match evs with
  | [EvYield _ r] => Some r
  | _ => None
  end.

(** [next()]: the body runs to its next [yield], its end or an exception.
    [None] when [fuel] rounds do not get there. *)
Fixpoint gen_next (fuel : nat) (c : config) : option (config * list event * reply) :=
  match fuel with
  | O => None
  | S fuel' =>
      match fst c with
      | PDone _ => Some (c, [], StopIteration)
      | _ =>
          let '(c1, evs1) := step c in
          match yielded evs1 with
          | Some r => Some (c1, evs1, Value r)
          | None =>
              match fst c1 with
              | PDone (Some e) => Some (c1, evs1, Raise e)
              | PDone None => Some (c1, evs1, StopIteration)
              | _ =>
                  match gen_next fuel' c1 with
                  | Some (c2, evs2, rep) => Some (c2, evs1 ++ evs2, rep)
                  | None => None
                  end
              end
          end
      end
  end.

(** The caller iterating to the end, [for kv in readtb(...)]: the records
    received and how the iteration ended ([None]: normally). *)
Fixpoint drain (fuel : nat) (c : config)
  : option (list record * option exn * list event) :=
  match fuel with
  | O => None
  | S fuel' =>
      match gen_next fuel c with
      | None => None
      | Some (c1, evs1, Value r) =>
          match drain fuel' c1 with
          | Some (rs, e, evs2) => Some (r :: rs, e, evs1 ++ evs2)
          | None => None
          end
      | Some (_, evs1, StopIteration) => Some ([], None, evs1)
      | Some (_, evs1, Raise e) => Some ([], Some e, evs1)
      end
  end.

End Body.

End Hdfs.

Arguments World : clear implicits.
Arguments state : clear implicits.
Arguments config : clear implicits.
Arguments event : clear implicits.
Arguments wevent : clear implicits.
Arguments reply : clear implicits.

(** * Observations on runs *)

Section Observations.

Context {record : Type}.
Implicit Types (w : World record) (tr : list (event record)) (f : fd).

(** The records handed to the caller, in order. *)
Definition yields tr : list record :=
  omap (λ ev, match ev with EvYield _ r => Some r | _ => None end) tr.

(** Those that came from pipe [f]. *)
Definition yields_of f tr : list record :=
  omap (λ ev, match ev with
              | EvYield f' r => if decide (f' = f) then Some r else None
              | _ => None
              end) tr.

(** The sources created: pipe and path. *)
Definition spawns tr : list (fd * string) :=
  omap (λ ev, match ev with EvSpawn f p => Some (f, p) | _ => None end) tr.

(** The sources retired. *)
Definition waits tr : list fd :=
  omap (λ ev, match ev with EvWait f _ => Some f | _ => None end) tr.

(** The roots listed. *)
Definition listed tr : list string :=
  omap (λ ev, match ev with EvLs r => Some r | _ => None end) tr.

(** Number of sources created and not retired after [tr], starting from
    [active]. *)
Fixpoint active_after (active : nat) tr : nat :=
  match tr with
  | [] => active
  | EvSpawn _ _ :: tr' => active_after (S active) tr'
  | EvWait _ _ :: tr' => active_after (pred active) tr'
  | _ :: tr' => active_after active tr'
  end.

(** At every point of [tr] at most [cap] sources are created and not
    retired. *)
Fixpoint within (cap active : nat) tr : Prop :=
  match tr with
  | [] => active ≤ cap
  | EvSpawn _ _ :: tr' => active ≤ cap ∧ within cap (S active) tr'
  | EvWait _ _ :: tr' => active ≤ cap ∧ within cap (pred active) tr'
  | _ :: tr' => within cap active tr'
  end.

(** The records of the file at [path], as its dump process produces them. *)
Definition stream_of w (path : string) : list record :=
  dump_stream w (dump_cmd w path).

(** All the paths [_path_gen] goes through for [roots], when every listing
    succeeds. *)
Fixpoint enumerate w (ignore_logs : bool) (roots : list string)
  : res (list string) :=
  match roots with
  | [] => ret []
  | root_path :: roots' =>
      match root_paths w ignore_logs root_path with
      | inr e => raise e
      | inl l =>
          match enumerate w ignore_logs roots' with
          | inr e => raise e
          | inl l' => ret (l ++ l')
          end
      end
  end.

(** The paths a path generator has not yet opened. *)
Definition pending w (ignore_logs : bool) (g : option pg) : res (list string) :=
  match g with
  | None => ret []
  | Some g =>
      match enumerate w ignore_logs (pg_roots g) with
      | inr e => raise e
      | inl l => ret (pg_cur g ++ l)
      end
  end.

(** What [select] promises without a timeout: of the descriptors given
    (those of a set, so each once), a non-empty choice, each once. *)
Definition valid_select w : Prop :=
  ∀ n (l : list fd), l ≠ [] → NoDup l →
    select w n l ≠ [] ∧ NoDup (select w n l) ∧ select w n l ⊆ l.

(** [w] with other exit statuses for the dump processes. *)
Definition with_rcode (rc : string → Z) w : World record :=
  MkWorld (hstreaming w) (run_cmd w) (dump_stream w) rc (load_proc w) (select w).

Definition erase_rcode (ev : event record) : event record :=
  match ev with
  | EvWait f _ => EvWait f 0%Z
  | _ => ev
  end.

(** A reply of [next()] and a whole iteration, with the exit statuses
    blanked in what was done. *)
Definition erase_next (x : option (config record * list (event record) * reply record))
  : option (config record * list (event record) * reply record) :=
  match x with
  | Some (c, evs, rep) => Some (c, map erase_rcode evs, rep)
  | None => None
  end.

Definition erase_run (x : option (list record * option exn * list (event record)))
  : option (list record * option exn * list (event record)) :=
  match x with
  | Some (rs, o, evs) => Some (rs, o, map erase_rcode evs)
  | None => None
  end.



(** Events of [writetb]'s loop over records that are all written. *)
Definition written (kvs : list record) : list (wevent record) :=
  concat (map (λ kv, [WPoll None; WWrite kv]) kvs).

Definition not_found (root_path : string) : exn :=
  IOError ("No such file or directory: '" +:+ root_path +:+ "'").

(** The body is past the initial activation and has not raised. *)
Definition filled (ctl : control) : bool :=
  match ctl with
  | PWhile | PFor _ | PDone None => true
  | _ => false
  end.

(** The body has ended. *)
Definition done_ctl (ctl : control) : bool :=
  match ctl with PDone _ => true | _ => false end.

(** The reading of "an enumeration failure raises before any source is
    created and before any record is yielded": whenever the listing of some
    root fails, the iteration ends with the error naming that root, having
    created no source and handed over no record. *)
Definition fails_upfront w (paths : paths_arg) (ignore_logs : bool)
    (num_procs : nat) : Prop :=
  ∀ root, root ∈ norm_paths paths → (∃ e, ls w root = raise e) →
  ∀ fuel rs o evs,
    drain w paths ignore_logs num_procs fuel
      (readtb paths ignore_logs num_procs).1 = Some (rs, o, evs) →
    o = Some (not_found root) ∧ spawns evs = [] ∧ rs = [].

End Observations.

(** * Invariants of a run of [readtb] *)

Section Invariants.

Context {record : Type}.
Variable w : World record.
Variable paths : paths_arg.
Variable ignore_logs : bool.
Variable num_procs : nat.
Variable files : list string.
Implicit Types (st : state record) (tr evs : list (event record)) (f : fd).
Implicit Types (c : config record) (ctl : control).

(** What one [path_gen.next()] under the [try] does: it lists some roots,
    and then opens one path, or finds the generator exhausted (or already
    dropped), or raises. *)
Inductive advanced st : res (state record) * list (event record) → Prop :=
  | adv_open ls p g' :
      (∀ pend, pending w ignore_logs (path_gen st) = ret pend →
               ∃ pend', pend = p :: pend'
                        ∧ pending w ignore_logs (Some g') = ret pend') →
      advanced st (ret (set_path_gen (Some g') (_open_tb w p st)),
                   map EvLs ls ++ [EvSpawn (next_fd st) p])
  | adv_stop ls :
      (∀ pend, pending w ignore_logs (path_gen st) = ret pend → pend = []) →
      advanced st (ret (set_path_gen None st), map EvLs ls)
  | adv_raise e ls :
      (∀ pend, pending w ignore_logs (path_gen st) ≠ ret pend) →
      advanced st (raise e, map EvLs ls).

(** How the containers of [readtb] relate to what has happened so far. *)
Record data_inv st tr : Prop := DataInv {
  di_active : active_after 0 tr = size (read_fds st);
  di_cap : size (read_fds st) ≤ num_procs;
  di_within : within num_procs 0 tr;
  di_procs : dom (procs st) = read_fds st;
  di_tbs : dom (tb_fps st) = read_fds st;
  di_fds : (spawns tr).*1 = seq 0 (next_fd st);
  di_lt : ∀ f, f ∈ read_fds st → f < next_fd st;
  di_live : ∀ f p, (f, p) ∈ spawns tr → f ∈ read_fds st →
      procs st !! f = Some (dump_cmd w p)
      ∧ ∃ rest, tb_fps st !! f = Some rest
                ∧ yields_of f tr ++ rest = stream_of w p;
  di_done : ∀ f p, (f, p) ∈ spawns tr → f ∉ read_fds st →
      yields_of f tr = stream_of w p;
  di_fresh : ∀ f, next_fd st ≤ f → yields_of f tr = [];
  di_waits : length (waits tr) + size (read_fds st) = next_fd st;
}.

(** The initial activation never overfills. *)
Definition ctl_inv ctl st : Prop :=
  match ctl with
  | PStart => st = empty_state
  | PFill k => size (read_fds st) + k ≤ num_procs
  | PDone None => read_fds st = ∅
  | _ => True
  end.

Definition inv c tr : Prop := data_inv c.2 tr ∧ ctl_inv c.1 c.2.

(** The path generator as the body sees it: before the body starts, the
    generator it is about to create. *)
Definition gen_of c : option pg :=
  match c.1 with
  | PStart => Some (PG [] (norm_paths paths))
  | _ => path_gen c.2
  end.

(** Sources are created in the order of enumeration, and the pool is full
    as long as paths are pending. *)
Definition fill_inv c tr : Prop :=
  ∃ pend,
    pending w ignore_logs (gen_of c) = ret pend
    ∧ (spawns tr).*2 ++ pend = files
    ∧ match c.1 with
      | PStart => True
      | PFill k => pend ≠ [] → size (read_fds c.2) + k = num_procs
      | PDone (Some e) => e = KeyError
      | _ => pend ≠ [] → size (read_fds c.2) = num_procs
      end.

(** With [select] keeping its promise, the descriptors still to be served
    in this round are open, each once, and the body has not raised. *)
Definition for_inv c : Prop :=
  match c.1 with
  | PFor cur => NoDup cur ∧ ∀ f, f ∈ cur → f ∈ read_fds c.2
  | PDone (Some _) => False
  | _ => True
  end.

(** Records and retirements the open sources still owe. *)
Definition work (m : gmap fd (list record)) : nat :=
  map_fold (λ _ recs acc, S (length recs) + acc) 0 m.

(** The same for paths not yet opened. *)
Definition owed (pend : list string) : nat :=
  sum_list_with (λ p, S (length (stream_of w p))) pend.

Definition rem c : list string :=
  match pending w ignore_logs (gen_of c) with
  | inl l => l
  | inr _ => []
  end.

Definition measure c : nat :=
  let W := work (tb_fps c.2) + owed (rem c) in
  match c.1 with
  | PStart => 3 * W + num_procs + 4
  | PFill k => 3 * W + k + 3
  | PWhile => 3 * W + 1
  | PFor [] => 3 * W + 2
  | PFor (_ :: _) => 3 * W
  | PDone _ => 0
  end.

(** Every invariant together. *)
Definition good c tr : Prop := inv c tr ∧ fill_inv c tr ∧ for_inv c.

End Invariants.

(** Reduces the projections of a state that was just built, and the
    observations on the events of one round, and nothing else. *)
Ltac st_simpl :=
  cbn [read_fds procs tb_fps path_gen next_fd nselect empty_state _open_tb
       retire set_decoder set_path_gen tick_select _hadoop_fs_command fst snd
       spawns yields yields_of waits listed omap list_omap active_after
       within app length fmap list_fmap] in *.

(** Unfolds the work still owed. *)
Ltac msimpl :=
  cbn [pending] in *;
  unfold ret, _hadoop_fs_command, owed, stream_of in *;
  cbn [sum_list_with length] in *.

(** * The rest of the module *)

(** ** More Python string helpers *)

(** The characters [str.split()] treats as blanks: space, tab, newline,
    return, vertical tab and form feed. *)
Definition is_space (a : ascii) : bool :=
  let n := nat_of_ascii a in
  (n =? 32)%nat || ((9 <=? n)%nat && (n <=? 13)%nat).

(** The field that starts at the head of [s] (empty if [s] starts with a
    blank) and the fields after it. *)
Fixpoint split_ws (s : string) : string * list string :=
  match s with
  | EmptyString => (EmptyString, [])
  | String a s' =>
      let '(tok, toks) := split_ws s' in
      if is_space a
      then (EmptyString, match tok with EmptyString => toks | _ => tok :: toks end)
      else (String a tok, toks)
  end.

(** [s.split()]: the maximal runs of characters that are not blanks. *)
Definition py_split (s : string) : list string :=
  let '(tok, toks) := split_ws s in
  match tok with EmptyString => toks | _ => tok :: toks end.

(** [s.startswith(p)] *)
Fixpoint startswith (p s : string) : bool :=
  match p, s with
  | EmptyString, _ => true
  | String a p', String b s' => Ascii.eqb a b && startswith p' s'
  | String _ _, EmptyString => false
  end.

(** [s.endswith(p)] *)
Definition endswith (p s : string) : bool :=
  match strip_prefix (rev_chars p) (rev_chars s) with
  | Some _ => true
  | None => false
  end.

Fixpoint after_first (c : ascii) (l : list ascii) : option (list ascii) :=
  match l with
  | [] => None
  | a :: l' => if Ascii.eqb a c then Some l' else after_first c l'
  end.

(** [s.rsplit(c, 1)[0]]: what stands before the last [c], all of [s] when
    it has none. *)
Definition rsplit_head (c : ascii) (s : string) : string :=
  match after_first c (rev_chars s) with
  | Some l => String.string_of_list_ascii (rev l)
  | None => s
  end.

(** ** [posixpath]: [join], [normpath], [abspath] *)

(** [os.path.join(a, b)] *)
Definition os_path_join (a b : string) : string :=
  if startswith "/" b then b
  else if String.eqb a EmptyString || endswith "/" a then a +:+ b
  else a +:+ "/" +:+ b.

(** The loop of [normpath] over the components; [new_comps] is kept with
    its last element first. *)
Definition norm_comp (initial_slashes : nat) (new_comps : list string)
    (comp : string) : list string :=
  if String.eqb comp EmptyString || String.eqb comp "." then new_comps
  else if negb (String.eqb comp "..")
          || ((initial_slashes =? 0)%nat
              && match new_comps with [] => true | _ => false end)
          || match new_comps with
             | last :: _ => String.eqb last ".."
             | [] => false
             end
  then comp :: new_comps
  else match new_comps with
       | _ :: popped => popped
       | [] => new_comps
       end.

Definition initial_slashes (path : string) : nat :=
  if startswith "/" path then
    if startswith "//" path && negb (startswith "///" path) then 2%nat
    else 1%nat
  else 0%nat.

Fixpoint slashes (n : nat) : string :=
  match n with
  | O => EmptyString
  | S n' => String "/"%char (slashes n')
  end.

(** [os.path.normpath(path)] *)
Definition normpath (path : string) : string :=
  if String.eqb path EmptyString then "."
  else
    let n := initial_slashes path in
    let comps := split_on "/"%char path in
    let new_comps := rev (fold_left (norm_comp n) comps []) in
    let path' := slashes n +:+ String.concat "/" new_comps in
    if String.eqb path' EmptyString then "." else path'.

(** [os.path.abspath(path)], the working directory being [cwd]. *)
Definition os_path_abspath (cwd path : string) : string :=
  normpath (if startswith "/" path then path else os_path_join cwd path).

Section Rest.

Context {record : Type}.
Implicit Types (w : World record).

(** ** [_cleaned_hadoop_stderr] *)

(** [parts[2] == 'INFO' or parts[2] == 'WARN'] *)
Definition is_log_level (part : string) : bool :=
  String.eqb part "INFO" || String.eqb part "WARN".

(** The generator iterated to its end: the lines it yields, and the
    exception that ends the iteration, if any. *)
Fixpoint _cleaned_hadoop_stderr (hdfs_stderr : list string)
  : list string * option exn :=
  match hdfs_stderr with
  | [] => ([], None)
  | line :: rest =>
      let parts := py_split line in
      match nth_error parts 2 with
      | None => ([], Some IndexError)
      | Some part =>
          let '(out, e) := _cleaned_hadoop_stderr rest in
          if is_log_level part then (out, e) else (line :: out, e)
      end
  end.

(** ** [exists], [isdir], [isempty] *)

Definition hadoop_fs_test (w : World record) (flag path : string) : bool :=
  let p := _hadoop_fs_command ("hadoop fs -test " +:+ flag +:+ " " +:+ path) in
  (rcode (run_cmd w p) =? 0)%Z.

(** [exists] ([exists] is a keyword here). *)
Definition exists_ w (path : string) : bool := hadoop_fs_test w "-e" path.

Definition isdir w (path : string) : bool := hadoop_fs_test w "-d" path.

Definition isempty w (path : string) : bool := hadoop_fs_test w "-z" path.

(** ** [abspath] *)

Definition no_home : exn := IOError "Home directory doesn't exist".

(** [hadoopy.ls] is what the package exports under that name, and [cwd] the
    working directory of the process; the global [_USER_HOME_DIR] is passed
    in and handed back. *)
Definition abspath w (hadoopy_ls : string → res (list string)) (cwd : string)
    (_USER_HOME_DIR : option string) (path : string)
  : res string * option string :=
  match path with
  | EmptyString => (raise IndexError, _USER_HOME_DIR)
  | String c _ =>
      if Ascii.eqb c "/"%char
      then (ret (os_path_abspath cwd path), _USER_HOME_DIR)
      else
        match _USER_HOME_DIR with
        | Some home =>
            (ret (os_path_abspath cwd (os_path_join home path)), _USER_HOME_DIR)
        | None =>
            match hadoopy_ls "." with
            | inr (IOError msg) =>
                if negb (exists_ w ".") then (raise no_home, None)
                else (raise (IOError msg), None)
            | inr e => (raise e, None)
            | inl [] => (raise IndexError, None)
            | inl (first :: _) =>
                let home := rsplit_head "/"%char first in
                (ret (os_path_abspath cwd (os_path_join home path)), Some home)
            end
        end
  end.

(** ** [rmr], [put], [get] *)

Definition rmr w (path : string) : res unit :=
  match _checked_hadoop_fs_command w ("hadoop fs -rmr " +:+ path) with
  | inl _ => ret tt
  | inr e => raise e
  end.

Definition put w (local_path hdfs_path : string) : res unit :=
  match _checked_hadoop_fs_command w
          ("hadoop fs -put " +:+ local_path +:+ " " +:+ hdfs_path) with
  | inl _ => ret tt
  | inr e => raise e
  end.

Definition get w (hdfs_path local_path : string) : res unit :=
  match _checked_hadoop_fs_command w
          ("hadoop fs -get " +:+ hdfs_path +:+ " " +:+ local_path) with
  | inl _ => ret tt
  | inr e => raise e
  end.

(** ** What [hadoop fs -ls] prints *)

Definition newline : string := String "010"%char EmptyString.

(** One line per entry: the permissions, owner, size and date in [meta],
    a space and the path. *)
Fixpoint listing_lines (entries : list (string * string)) : string :=
  match entries with
  | [] => EmptyString
  | (meta, path) :: entries' =>
      meta +:+ " " +:+ path +:+ newline +:+ listing_lines entries'
  end.

(** The lines, under the header with the number of entries when [count]
    is given. *)
Definition listing_text (count : option string)
    (entries : list (string * string)) : string :=
  match count with
  | Some n => "Found " +:+ n +:+ " items" +:+ newline +:+ listing_lines entries
  | None => listing_lines entries
  end.

(** [c] does not occur in [s]. *)
Definition lacks (c : ascii) (s : string) : Prop :=
  c ∉ String.list_ascii_of_string s.

Definition all_digits (s : string) : Prop :=
  Forall (λ a, is_digit a = true) (String.list_ascii_of_string s).

(** The last field of a line, as [ls] takes it. *)
Definition last_field (x : string) : string := last_str (split_on " "%char x).

(** The lines of the listing that [ls] keeps: [x and not found_line(x)]. *)
Definition ls_keeps (x : string) : bool :=
  negb (String.eqb x EmptyString) && negb (found_line x).

(** A path as [normpath] leaves it after the leading slashes: no empty
    component, no [.] and no [..]. *)
Definition canonical (comps : list string) : Prop :=
  Forall (λ c, c ≠ EmptyString ∧ c ≠ "." ∧ c ≠ ".." ∧ lacks "/"%char c) comps.

(** ** Observations on [_cleaned_hadoop_stderr] *)

(** The line has a third field. *)
Definition has_level (line : string) : Prop := 3 ≤ length (py_split line).

(** Its third field is neither [INFO] nor [WARN]. *)
Definition kept_line (line : string) : bool :=
  match nth_error (py_split line) 2 with
  | Some part => negb (is_log_level part)
  | None => false
  end.

(** ** Observations on [readtb] *)

(** The sources retired so far are, each once, the pipes handed out that
    are no longer read. *)
Definition retired_inv (st : state record) (tr : list (event record)) : Prop :=
  NoDup (waits tr) ∧ ∀ f, f ∈ waits tr ↔ f < next_fd st ∧ f ∉ read_fds st.

(** ** A run of [readtb] whose roots end in one that cannot be enumerated *)

(** The path generator with more roots to come after its own. *)
Definition ext_pg (tail : list string) (g : pg) : pg :=
  PG (pg_cur g) (pg_roots g ++ tail).

Definition ext_state (tail : list string) (st : state record) : state record :=
  set_path_gen (ext_pg tail <$> path_gen st) st.

(** The body has not ended, its path generator is not exhausted, and the
    pool is as full as the loop it stands in makes it. *)
Definition alive (num_procs : nat) (c : config record) : Prop :=
  match c.1 with
  | PStart => c.2 = empty_state
  | PFill k => is_Some (path_gen c.2) ∧ size (read_fds c.2) + k = num_procs
  | PWhile | PFor _ => is_Some (path_gen c.2) ∧ size (read_fds c.2) = num_procs
  | PDone _ => False
  end.

(** The body is still in the initial activation and has handed over no
    record, or there are at least [num_procs] files. *)
Definition unserved (num_procs : nat) (files : list string)
    (c : config record) (tr : list (event record)) : Prop :=
  match c.1 with
  | PStart | PFill _ => yields tr = []
  | _ => num_procs ≤ length files
  end.


(** ** Observations on [writetb] *)

(** The records written to the pipe, in order. *)
Definition wwrites (evs : list (wevent record)) : list record :=
  omap (λ ev, match ev with WWrite kv => Some kv | _ => None end) evs.

(** How often the pipe is closed. *)
Definition wcloses (evs : list (wevent record)) : nat :=
  length (omap (λ ev, match ev with WClose => Some tt | _ => None end) evs).

End Rest.

(** A character does not occur in a literal. *)
Ltac lacks_literal :=
  unfold lacks; cbn [String.list_ascii_of_string];
  rewrite ?not_elem_of_cons; split_and?; (done || apply not_elem_of_nil).

(** * A sample cluster *)

Module Sample.

Definition nl : string := String "010"%char EmptyString.

(** What [hadoop fs -ls] prints for a directory holding [ps]. *)
Definition ls_stdout (ps : list string) : string :=
  "Found 2 items" +:+ nl
  +:+ foldr (λ p acc, "-rw-r--r--   1 hadoop supergroup 0 2011-01-01 10:00 "
                      +:+ p +:+ nl +:+ acc) EmptyString ps.

(** Two directories, [/d] with a status marker and one data file and [/e]
    with two data files; no other path exists. *)
Definition fs (cmd : string) : proc_result :=
  if String.eqb cmd "hadoop fs -ls /d"
  then ProcResult 0 (ls_stdout ["/d/_SUCCESS"; "/d/part-0"]) EmptyString
  else if String.eqb cmd "hadoop fs -ls /e"
  then ProcResult 0 (ls_stdout ["/e/part-0"; "/e/part-1"]) EmptyString
  else ProcResult 255 EmptyString "ls: Cannot access: No such file or directory.".

Definition files (cmd : string) : list nat :=
  if String.eqb cmd "hadoop jar hs.jar dumptb /d/part-0" then [1; 2; 3]
  else if String.eqb cmd "hadoop jar hs.jar dumptb /e/part-0" then [10; 20]
  else if String.eqb cmd "hadoop jar hs.jar dumptb /e/part-1" then [7]
  else [].

(** Every descriptor given is ready. *)
Definition all_ready (n : nat) (l : list fd) : list fd := l.

(** Only the first descriptor given is ready. *)
Definition first_ready (n : nat) (l : list fd) : list fd := take 1 l.

Definition world (sel : nat → list fd → list fd) (ld : loader) : World nat :=
  MkWorld "hs.jar" fs files (λ _, 0%Z) (λ _, ld) sel.

(** A loader that consumes everything and then fails. *)
Definition failing_loader : loader := Loader None 1 "" "loadtb: failed".

(** A loader that has exited with status 1 when the second record is to be
    written. *)
Definition dying_loader : loader := Loader (Some 1) 1 "out" "err".

End Sample.

(** A second cluster, for the listings: the home directory of a user, a
    directory whose file has a space in its name, a listing with a path
    that ends in a slash, and a directory with a file named as the header
    of a listing ends. *)
Module Home.

Definition meta : string := "-rw-r--r--   1 alice supergroup 0 2011-01-01 10:00".

Definition home_entries : list (string * string) :=
  [(meta, "/user/alice/data"); (meta, "/user/alice/logs")].

Definition shared_entries : list (string * string) :=
  [(meta, "/shared/my notes")].

Definition slash_entries : list (string * string) :=
  [(meta, "/t/part-0"); (meta, "/t/sub/")].

(** A file whose name ends as the header of a listing does. *)
Definition found_entries : list (string * string) :=
  [(meta, "/x/Found 3 items"); (meta, "/x/my items")].

Definition fs (cmd : string) : proc_result :=
  if String.eqb cmd "hadoop fs -ls ."
  then ProcResult 0 (listing_text (Some "2") home_entries) EmptyString
  else if String.eqb cmd "hadoop fs -ls /shared"
  then ProcResult 0 (listing_text (Some "1") shared_entries) EmptyString
  else if String.eqb cmd "hadoop fs -ls /t"
  then ProcResult 0 (listing_text None slash_entries) EmptyString
  else if String.eqb cmd "hadoop fs -ls /x"
  then ProcResult 0 (listing_text (Some "2") found_entries) EmptyString
  else ProcResult 255 EmptyString "ls: Cannot access: No such file or directory.".

Definition world : World nat :=
  MkWorld "hs.jar" fs Sample.files (λ _, 0%Z) (λ _, Sample.failing_loader)
    Sample.all_ready.

(** What a failing command leaves on stderr, with the log lines of the
    client. *)
Definition stderr_lines : list string :=
  ["11/01/01 10:00:00 INFO security.Groups: Group mapping";
   "11/01/01 10:00:01 WARN conf.Configuration: mapred.task.id is deprecated";
   "put: Target /out already exists";
   "11/01/01 10:00:02 ERROR fs.FsShell: failed"].

End Home.

(** * Properties *)

(** ** The checked command wrapper *)

Section CheckedCommand.

Context {record : Type}.
Implicit Types (w : World record) (cmd : string).

Lemma checked_nonzero w cmd :
  rcode (run_cmd w cmd) ≠ 0%Z →
  _checked_hadoop_fs_command w cmd
  = raise (IOError ("Ran[" +:+ cmd +:+ "]: " +:+ p_stderr (run_cmd w cmd))).
Proof.
  intros Hrc. unfold _checked_hadoop_fs_command, _hadoop_fs_command. simpl.
  destruct (Z.eqb_spec (rcode (run_cmd w cmd)) 0) as [Heq|_]; [by destruct Hrc|done].
Qed.

Lemma checked_zero w cmd :
  rcode (run_cmd w cmd) = 0%Z →
  _checked_hadoop_fs_command w cmd
  = ret (0%Z, p_stdout (run_cmd w cmd), p_stderr (run_cmd w cmd)).
Proof.
  intros Hrc. unfold _checked_hadoop_fs_command, _hadoop_fs_command. simpl.
  by rewrite Hrc.
Qed.

(** C7: [_checked_hadoop_fs_command] raises exactly when the exit code of the
    command is not zero, the error then carries the command text and the
    captured stderr; on exit code zero it returns the exit code with the
    captured stdout and stderr. *)
Theorem checked_command_raises_iff_nonzero w cmd :
  ((∃ e, _checked_hadoop_fs_command w cmd = raise e)
   ↔ rcode (run_cmd w cmd) ≠ 0%Z)
  ∧ (∀ e, _checked_hadoop_fs_command w cmd = raise e →
          e = IOError ("Ran[" +:+ cmd +:+ "]: " +:+ p_stderr (run_cmd w cmd)))
  ∧ (∀ v, _checked_hadoop_fs_command w cmd = ret v ↔
          rcode (run_cmd w cmd) = 0%Z
          ∧ v = (rcode (run_cmd w cmd), p_stdout (run_cmd w cmd),
                 p_stderr (run_cmd w cmd))).
Proof.
  destruct (decide (rcode (run_cmd w cmd) = 0%Z)) as [Hz|Hnz].
  - rewrite (checked_zero _ _ Hz), Hz. unfold ret, raise. split_and!.
    + split; [by intros [e He]|by intros Hne].
    + by intros e He.
    + intros v. split; [by intros [= <-]|by intros [_ ->]].
  - rewrite (checked_nonzero _ _ Hnz). unfold ret, raise. split_and!.
    + split; [done|intros _; by eexists].
    + by intros e [= <-].
    + intros v. split; [done|by intros [Hz _]].
Qed.

End CheckedCommand.

(** ** [writetb] *)

Section Writer.

Context {record : Type}.
Implicit Types (w : World record) (l : loader) (kvs : list record).

Lemma poll_running l n q : l_quit l = Some q → n < q → poll l n = None.
Proof.
  intros Hq Hn. unfold poll. rewrite Hq.
  destruct (Nat.ltb_spec n q); [done|lia].
Qed.

Lemma poll_exited l n q :
  l_quit l = Some q → q ≤ n → poll l n = Some (l_rcode l).
Proof.
  intros Hq Hn. unfold poll. rewrite Hq.
  destruct (Nat.ltb_spec n q); [lia|done].
Qed.

Lemma poll_alive l n : l_quit l = None → poll l n = None.
Proof. intros Hq. unfold poll. by rewrite Hq. Qed.

Lemma write_loop_all l n kvs :
  (∀ i, n ≤ i < n + length kvs → poll l i = None) →
  write_loop l n kvs = (ret tt, written kvs).
Proof.
  revert n. induction kvs as [|kv kvs IH]; intros n Hp; [done|].
  simpl. rewrite Hp by (simpl; lia).
  rewrite IH; [done|]. intros i Hi. apply Hp. simpl. lia.
Qed.

Lemma write_loop_quit l n kvs q :
  l_quit l = Some q → n ≤ q → q < n + length kvs →
  write_loop l n kvs
  = (raise (IOError (quit_msg l)),
     written (take (q - n) kvs) ++ [WPoll (Some (l_rcode l)); WCommunicate]).
Proof.
  intros Hq. revert n. induction kvs as [|kv kvs IH]; intros n Hn Hlen.
  { simpl in Hlen. lia. }
  simpl. destruct (decide (n = q)) as [->|Hne].
  - rewrite (poll_exited _ _ _ Hq) by lia. by rewrite Nat.sub_diag.
  - rewrite (poll_running _ _ _ Hq) by lia.
    rewrite (IH (S n)) by (simpl in Hlen; lia).
    replace (q - n) with (S (q - S n)) by lia. done.
Qed.

Lemma writetb_quit w path kvs q :
  let cmd := "hadoop jar " +:+ hstreaming w +:+ " loadtb " +:+ path in
  let p := load_proc w cmd in
  l_quit p = Some q →
  q < length kvs →
  writetb w path kvs
  = (raise (IOError (quit_msg p)),
     WSpawn cmd :: written (take q kvs)
       ++ [WPoll (Some (l_rcode p)); WCommunicate; WClose]).
Proof.
  intros cmd p Hq Hlen. unfold writetb, _hadoop_fs_command.
  fold cmd. fold p.
  rewrite (write_loop_quit p 0 kvs q Hq) by (simpl; lia).
  rewrite Nat.sub_0_r. unfold raise. by rewrite <- app_assoc.
Qed.

(** A loader that is running at every poll: every record is written, the
    pipe is flushed and closed, the loader is waited for, and [writetb]
    returns, whatever the exit status. *)
Lemma writetb_loader_alive w path kvs :
  let cmd := "hadoop jar " +:+ hstreaming w +:+ " loadtb " +:+ path in
  let p := load_proc w cmd in
  (∀ i, i < length kvs → poll p i = None) →
  writetb w path kvs
  = (ret tt, WSpawn cmd :: written kvs ++ [WFlush; WClose; WWait (l_rcode p)]).
Proof.
  intros cmd p Hp. unfold writetb, _hadoop_fs_command. fold cmd. fold p.
  rewrite write_loop_all; [done|]. intros i Hi. apply Hp. simpl in Hi. lia.
Qed.

(** C5: [writetb] polls the loader before each record it writes.  While the
    polls find the loader running the records are written one after the
    other.  When the loader has exited by the time record number [q] is to
    be written, the poll before that write finds it so, and [writetb]
    raises at once the error that carries the loader's captured stdout and
    stderr: the records from number [q] on are not written. *)
Theorem writetb_loader_quit w path kvs :
  let cmd := "hadoop jar " +:+ hstreaming w +:+ " loadtb " +:+ path in
  let p := load_proc w cmd in
  ((∀ i, i < length kvs → poll p i = None) →
   ∃ tail, writetb w path kvs = (ret tt, WSpawn cmd :: written kvs ++ tail))
  ∧ ∀ q, l_quit p = Some q → q < length kvs →
      writetb w path kvs
      = (raise (IOError ("Child process quit while we were sending it data. STDOUT["
                         +:+ l_stdout p +:+ "] STDERR[" +:+ l_stderr p +:+ "]")),
         WSpawn cmd :: written (take q kvs)
           ++ [WPoll (Some (l_rcode p)); WCommunicate; WClose]).
Proof.
  intros cmd p. split.
  - intros Hp. eexists. by apply writetb_loader_alive.
  - intros q Hq Hlen. by apply writetb_quit.
Qed.

End Writer.

(** ** The path generator *)

Section PathGen.

Context {record : Type}.
Variable w : World record.
Variable ignore_logs : bool.
Implicit Types (st : state record) (tr evs : list (event record)) (g : pg).

Local Abbreviation advanced := (advanced w ignore_logs).
Local Abbreviation adv_open := (adv_open w ignore_logs).
Local Abbreviation adv_stop := (adv_stop w ignore_logs).
Local Abbreviation adv_raise := (adv_raise w ignore_logs).

Lemma pg_roots_next_spec roots st :
  ∃ ls,
    match pg_roots_next w ignore_logs roots st with
    | PgYield g' st' evs =>
        ∃ p, st' = _open_tb w p st
             ∧ evs = map EvLs ls ++ [EvSpawn (next_fd st) p]
             ∧ ∀ pend, enumerate w ignore_logs roots = ret pend →
                 ∃ pend', pend = p :: pend'
                          ∧ pending w ignore_logs (Some g') = ret pend'
    | PgStop evs =>
        evs = map EvLs ls
        ∧ ∀ pend, enumerate w ignore_logs roots = ret pend → pend = []
    | PgRaise e evs =>
        evs = map EvLs ls
        ∧ ∀ pend, enumerate w ignore_logs roots ≠ ret pend
    end.
Proof.
  induction roots as [|root roots IH]; simpl.
  { exists []. split; [done|]. by intros pend [= <-]. }
  destruct (root_paths w ignore_logs root) as [[|p rest]|e] eqn:Hroot.
  - destruct IH as [ls IH]. exists (root :: ls).
    destruct (pg_roots_next w ignore_logs roots st) as [g' st' evs|evs|e evs];
      simpl.
    + destruct IH as (p & -> & -> & Hp). exists p. split_and!; [done..|].
      intros pend Hpend. apply Hp.
      destruct (enumerate w ignore_logs roots); by simplify_eq.
    + destruct IH as [-> Hp]. split; [done|]. intros pend Hpend. apply Hp.
      destruct (enumerate w ignore_logs roots); by simplify_eq.
    + destruct IH as [-> Hp]. split; [done|]. intros pend Hpend.
      destruct (enumerate w ignore_logs roots) as [l|] eqn:Hl; [|done].
      by apply (Hp l).
  - exists [root]. exists p. split_and!; [done..|].
    intros pend Hpend. unfold pending. simpl.
    destruct (enumerate w ignore_logs roots) as [l|]; [|done].
    simplify_eq. by exists (rest ++ l).
  - exists [root]. split; [done|]. by intros pend.
Qed.

Lemma advance_spec st : advanced st (advance w ignore_logs st).
Proof.
  unfold advance. destruct (path_gen st) as [g|] eqn:Hg.
  - unfold _path_gen_next. destruct g as [[|p rest] roots]; simpl.
    + destruct (pg_roots_next_spec roots st) as [ls Hls].
      destruct (pg_roots_next w ignore_logs roots st) as [g' st' evs|evs|e evs].
      * destruct Hls as (p & -> & -> & Hp). apply adv_open.
        intros pend Hpend. apply Hp. rewrite Hg in Hpend. unfold pending in Hpend. simpl in Hpend.
        destruct (enumerate w ignore_logs roots); by simplify_eq.
      * destruct Hls as [-> Hp]. apply adv_stop.
        intros pend Hpend. apply Hp. rewrite Hg in Hpend. unfold pending in Hpend. simpl in Hpend.
        destruct (enumerate w ignore_logs roots); by simplify_eq.
      * destruct Hls as [-> Hp]. apply adv_raise.
        intros pend Hpend. rewrite Hg in Hpend. unfold pending in Hpend. simpl in Hpend.
        destruct (enumerate w ignore_logs roots) as [l|] eqn:Hl; [|done].
        by apply (Hp l).
    + apply (adv_open st [] p (PG rest roots)).
      intros pend Hpend. rewrite Hg in Hpend. unfold pending in *. simpl in *.
      destruct (enumerate w ignore_logs roots) as [l|]; [|done].
      simplify_eq. by exists (rest ++ l).
  - apply (adv_stop st []). rewrite Hg. by intros pend [= <-].
Qed.

End PathGen.

(** ** Traces *)

Section Traces.

Context {record : Type}.
Implicit Types (tr evs : list (event record)) (f : fd).

Lemma yields_app tr evs : yields (tr ++ evs) = yields tr ++ yields evs.
Proof. apply omap_app. Qed.

Lemma yields_of_app f tr evs :
  yields_of f (tr ++ evs) = yields_of f tr ++ yields_of f evs.
Proof. apply omap_app. Qed.

Lemma spawns_app tr evs : spawns (tr ++ evs) = spawns tr ++ spawns evs.
Proof. apply omap_app. Qed.

Lemma waits_app tr evs : waits (tr ++ evs) = waits tr ++ waits evs.
Proof. apply omap_app. Qed.

Lemma yields_ls ls : yields (map (@EvLs record) ls) = [].
Proof. by induction ls. Qed.

Lemma yields_of_ls f ls : yields_of f (map (@EvLs record) ls) = [].
Proof. by induction ls. Qed.

Lemma spawns_ls ls : spawns (map (@EvLs record) ls) = [].
Proof. by induction ls. Qed.

Lemma waits_ls ls : waits (map (@EvLs record) ls) = [].
Proof. by induction ls. Qed.

Lemma yields_of_yield f f' (r : record) :
  yields_of f [EvYield f' r] = if decide (f' = f) then [r] else [].
Proof. unfold yields_of. simpl. by destruct (decide (f' = f)). Qed.

Lemma active_after_app a tr evs :
  active_after a (tr ++ evs) = active_after (active_after a tr) evs.
Proof.
  revert a. induction tr as [|ev tr IH]; intros a; [done|].
  destruct ev; simpl; apply IH.
Qed.

Lemma active_after_ls a ls : active_after a (map (@EvLs record) ls) = a.
Proof. by induction ls. Qed.

Lemma within_le cap a tr : within cap a tr → a ≤ cap.
Proof.
  revert a. induction tr as [|ev tr IH]; intros a; [done|].
  destruct ev; simpl; try tauto; apply IH.
Qed.

Lemma within_app cap a tr evs :
  within cap a (tr ++ evs)
  ↔ within cap a tr ∧ within cap (active_after a tr) evs.
Proof.
  revert a. induction tr as [|ev tr IH]; intros a; simpl.
  - split; [|tauto]. intros H. split; [|done]. by eapply within_le.
  - destruct ev; simpl; rewrite ?IH; tauto.
Qed.

Lemma within_ls cap a ls : a ≤ cap → within cap a (map (@EvLs record) ls).
Proof. intros Ha. by induction ls. Qed.

Lemma within_zero a tr : within 0 a tr → spawns tr = [].
Proof.
  revert a. induction tr as [|ev tr IH]; intros a; [done|].
  destruct ev; simpl; try apply IH.
  - intros [_ H]. apply within_le in H. lia.
  - intros [_ H]. by apply IH in H.
Qed.

Lemma yields_of_cons_yield f g (r : record) tr :
  yields_of g (EvYield f r :: tr)
  = if decide (f = g) then r :: yields_of g tr else yields_of g tr.
Proof. unfold yields_of. simpl. by destruct (decide (f = g)). Qed.

Lemma concat_yields_other (F : list fd) f (r : record) tr :
  f ∉ F →
  map (λ g, yields_of g (EvYield f r :: tr)) F = map (λ g, yields_of g tr) F.
Proof.
  induction F as [|g F IH]; intros Hf; [done|]. cbn [map].
  rewrite yields_of_cons_yield, IH by set_solver.
  destruct (decide (f = g)) as [->|]; [set_solver|done].
Qed.

Lemma concat_yields_cons (F : list fd) f (r : record) tr :
  NoDup F → f ∈ F →
  concat (map (λ g, yields_of g (EvYield f r :: tr)) F)
  ≡ₚ r :: concat (map (λ g, yields_of g tr) F).
Proof.
  induction F as [|g F IH]; intros Hnd Hf; [by apply elem_of_nil in Hf|].
  apply NoDup_cons in Hnd as [Hg Hnd]. cbn [map concat].
  rewrite yields_of_cons_yield.
  destruct (decide (f = g)) as [->|Hne].
  - by rewrite concat_yields_other.
  - rewrite IH by set_solver. by rewrite Permutation_middle.
Qed.

(** The records handed over are those of the pipes, pipe by pipe, in
    another order. *)
Lemma yields_perm n tr :
  (∀ f, n ≤ f → yields_of f tr = []) →
  yields tr ≡ₚ concat (map (λ f, yields_of f tr) (seq 0 n)).
Proof.
  induction tr as [|ev tr IH]; intros Hfresh.
  - simpl. induction (seq 0 n) as [|? ? IH']; [done|]. by simpl.
  - destruct ev as [root|f p|f r|f rc]; try (apply IH, Hfresh).
    assert (f < n) as Hlt.
    { destruct (decide (f < n)) as [|Hge]; [done|].
      specialize (Hfresh f ltac:(lia)). rewrite yields_of_cons_yield in Hfresh.
      by destruct (decide (f = f)). }
    rewrite concat_yields_cons; [|apply NoDup_seq|apply elem_of_seq; lia].
    change (yields (EvYield f r :: tr)) with (r :: yields tr).
    rewrite <- IH; [done|]. intros g Hg. specialize (Hfresh g Hg).
    rewrite yields_of_cons_yield in Hfresh.
    by destruct (decide (f = g)).
Qed.

Lemma yields_of_sublist f tr : yields_of f tr `sublist_of` yields tr.
Proof.
  induction tr as [|ev tr IH]; [done|].
  destruct ev as [root|f' p|f' r|f' rc]; try exact IH.
  rewrite yields_of_cons_yield.
  change (yields (EvYield f' r :: tr)) with (r :: yields tr).
  destruct (decide (f' = f)); by constructor.
Qed.

Lemma length_concat_map {A} (g : A → list record) (l : list A) :
  length (concat (map g l)) = sum_list_with (λ x, length (g x)) l.
Proof.
  induction l as [|x l IH]; [done|]. simpl. rewrite length_app. by rewrite IH.
Qed.

End Traces.

(** ** The invariants of [readtb] hold along every run *)

Section Reader.

Context {record : Type}.
Variable w : World record.
Variable paths : paths_arg.
Variable ignore_logs : bool.
Variable num_procs : nat.
Implicit Types (st : state record) (tr evs : list (event record)) (f : fd).
Implicit Types (c : config record) (ctl : control).

Local Abbreviation data_inv := (data_inv w num_procs).
Local Abbreviation di_active := (di_active w num_procs).
Local Abbreviation di_cap := (di_cap w num_procs).
Local Abbreviation di_within := (di_within w num_procs).
Local Abbreviation di_procs := (di_procs w num_procs).
Local Abbreviation di_tbs := (di_tbs w num_procs).
Local Abbreviation di_fds := (di_fds w num_procs).
Local Abbreviation di_lt := (di_lt w num_procs).
Local Abbreviation di_live := (di_live w num_procs).
Local Abbreviation di_done := (di_done w num_procs).
Local Abbreviation di_fresh := (di_fresh w num_procs).
Local Abbreviation di_waits := (di_waits w num_procs).
Local Abbreviation ctl_inv := (ctl_inv num_procs).
Local Abbreviation inv := (inv w num_procs).
Local Abbreviation gen_of := (gen_of paths).

Lemma data_inv_init : data_inv empty_state [].
Proof.
  split; st_simpl; rewrite ?size_empty, ?dom_empty_L; try done; try lia;
    intros; set_solver.
Qed.

Lemma data_inv_path_gen g st tr : data_inv st tr → data_inv (set_path_gen g st) tr.
Proof. intros []. by split. Qed.

Lemma data_inv_tick st tr : data_inv st tr → data_inv (tick_select st) tr.
Proof. intros []. by split. Qed.

Lemma data_inv_ls st tr ls : data_inv st tr → data_inv st (tr ++ map EvLs ls).
Proof.
  intros [di_active0 di_cap0 di_within0 di_procs0 di_tbs0 di_fds0 di_lt0 di_live0
    di_done0 di_fresh0 di_waits0].
  split; rewrite ?active_after_app, ?active_after_ls, ?spawns_app, ?spawns_ls,
    ?waits_app, ?waits_ls, ?app_nil_r; try done.
  - apply within_app. split; [done|]. apply within_ls. lia.
  - intros f p Hf Hin. rewrite yields_of_app, yields_of_ls, app_nil_r. eauto.
  - intros f p Hf Hin. rewrite yields_of_app, yields_of_ls, app_nil_r. eauto.
  - intros f Hf. rewrite yields_of_app, yields_of_ls, app_nil_r. eauto.
Qed.

Lemma spawned_lt st tr f p : data_inv st tr → (f, p) ∈ spawns tr → f < next_fd st.
Proof.
  intros Hinv Hin.
  assert (f ∈ (spawns tr).*1) as Hf by (apply list_elem_of_fmap; by exists (f, p)).
  rewrite (di_fds _ _ Hinv) in Hf. apply elem_of_seq in Hf. lia.
Qed.

Lemma active_spawned st tr f :
  data_inv st tr → f ∈ read_fds st → ∃ p, (f, p) ∈ spawns tr.
Proof.
  intros Hinv Hin.
  assert (f ∈ (spawns tr).*1) as Hf.
  { rewrite (di_fds _ _ Hinv). apply elem_of_seq.
    pose proof (di_lt _ _ Hinv f Hin). lia. }
  apply list_elem_of_fmap in Hf as [[f' p] [-> Hfp]]. by exists p.
Qed.

Lemma data_inv_open st tr p :
  data_inv st tr → size (read_fds st) < num_procs →
  data_inv (_open_tb w p st) (tr ++ [EvSpawn (next_fd st) p]).
Proof.
  intros Hinv Hcap.
  assert (next_fd st ∉ read_fds st) as Hfresh.
  { intros Hin. pose proof (di_lt _ _ Hinv _ Hin). lia. }
  assert (size ({[next_fd st]} ∪ read_fds st) = S (size (read_fds st))) as Hsize.
  { rewrite size_union by set_solver. by rewrite size_singleton. }
  destruct Hinv as [di_active0 di_cap0 di_within0 di_procs0 di_tbs0 di_fds0 di_lt0 di_live0
    di_done0 di_fresh0 di_waits0].
  split; st_simpl;
    rewrite ?active_after_app, ?spawns_app, ?waits_app, ?Hsize, ?length_app;
    st_simpl; try lia.
  - apply within_app. split; [done|]. st_simpl. lia.
  - rewrite dom_insert_L. by f_equal.
  - rewrite dom_insert_L. by f_equal.
  - rewrite fmap_app, seq_S. st_simpl. by f_equal.
  - intros f Hf. apply elem_of_union in Hf as [Hf|Hf].
    + apply elem_of_singleton in Hf. lia.
    + specialize (di_lt0 f Hf). lia.
  - intros f p' Hfp Hf. rewrite yields_of_app, app_nil_r.
    apply elem_of_app in Hfp as [Hfp|Hfp].
    + assert (f < next_fd st) as Hlt.
      { assert (f ∈ (spawns tr).*1) as Hf1
          by (apply list_elem_of_fmap; by exists (f, p')).
        rewrite di_fds0 in Hf1. apply elem_of_seq in Hf1. lia. }
      rewrite !lookup_insert_ne by lia.
      apply di_live0; [done|]. set_solver by lia.
    + apply list_elem_of_singleton in Hfp as [= -> ->].
      rewrite !lookup_insert_eq. split; [done|].
      exists (stream_of w p). split; [done|].
      by rewrite di_fresh0.
  - intros f p' Hfp Hf. rewrite yields_of_app, app_nil_r.
    apply elem_of_app in Hfp as [Hfp|Hfp].
    + apply di_done0; [done|]. set_solver.
    + apply list_elem_of_singleton in Hfp as [= -> ->]. set_solver.
  - intros f Hf. rewrite yields_of_app, app_nil_r. apply di_fresh0. lia.
Qed.

Lemma data_inv_yield st tr f r recs :
  data_inv st tr → tb_fps st !! f = Some (r :: recs) →
  data_inv (set_decoder f recs st) (tr ++ [EvYield f r]).
Proof.
  intros Hinv Hf.
  assert (f ∈ read_fds st) as Hin.
  { rewrite <- (di_tbs _ _ Hinv). apply elem_of_dom. eauto. }
  destruct Hinv as [di_active0 di_cap0 di_within0 di_procs0 di_tbs0 di_fds0 di_lt0 di_live0
    di_done0 di_fresh0 di_waits0].
  split; st_simpl;
    rewrite ?active_after_app, ?spawns_app, ?waits_app, ?app_nil_r;
    st_simpl; try done.
  - apply within_app. split; [done|]. st_simpl. lia.
  - rewrite dom_insert_L. set_solver.
  - intros f' p Hfp Hf'. rewrite yields_of_app, yields_of_yield.
    destruct (di_live0 f' p Hfp Hf') as (Hp & rest & Hrest & Hys).
    split; [done|]. destruct (decide (f = f')) as [->|Hne].
    + rewrite lookup_insert_eq. exists recs. split; [done|].
      rewrite Hf in Hrest. injection Hrest as <-. by rewrite <- app_assoc.
    + rewrite lookup_insert_ne by done. exists rest. by rewrite app_nil_r.
  - intros f' p Hfp Hf'. rewrite yields_of_app, yields_of_yield.
    destruct (decide (f = f')) as [->|Hne]; [done|].
    rewrite app_nil_r. eauto.
  - intros f' Hf'. rewrite yields_of_app, yields_of_yield.
    destruct (decide (f = f')) as [->|Hne].
    + specialize (di_lt0 f' Hin). lia.
    + rewrite app_nil_r. eauto.
Qed.

Lemma data_inv_retire st tr f rc :
  data_inv st tr → f ∈ read_fds st → tb_fps st !! f = Some [] →
  data_inv (retire f st) (tr ++ [EvWait f rc]).
Proof.
  intros Hinv Hin Hf.
  assert (size (read_fds st ∖ {[f]}) = pred (size (read_fds st))) as Hsize.
  { rewrite size_difference by set_solver. rewrite size_singleton. lia. }
  assert (0 < size (read_fds st)) as Hpos.
  { destruct (decide (size (read_fds st) = 0)) as [Hz|]; [|lia].
    apply size_empty_iff in Hz. set_solver. }
  destruct Hinv as [di_active0 di_cap0 di_within0 di_procs0 di_tbs0 di_fds0 di_lt0 di_live0
    di_done0 di_fresh0 di_waits0].
  split; st_simpl;
    rewrite ?active_after_app, ?spawns_app, ?waits_app, ?app_nil_r, ?Hsize,
      ?length_app;
    st_simpl; try done; try lia.
  - apply within_app. split; [done|]. st_simpl. lia.
  - rewrite dom_delete_L. by f_equal.
  - rewrite dom_delete_L. by f_equal.
  - intros f' Hf'. apply di_lt0. set_solver.
  - intros f' p Hfp Hf'. rewrite yields_of_app. st_simpl. rewrite app_nil_r.
    assert (f' ≠ f) by set_solver.
    rewrite !lookup_delete_ne by done. apply di_live0; [done|]. set_solver.
  - intros f' p Hfp Hf'. rewrite yields_of_app. st_simpl. rewrite app_nil_r.
    destruct (decide (f' = f)) as [->|Hne].
    + destruct (di_live0 f p Hfp Hin) as (_ & rest & Hrest & Hys).
      rewrite Hf in Hrest. injection Hrest as <-. by rewrite app_nil_r in Hys.
    + apply di_done0; [done|]. set_solver.
  - intros f' Hf'. rewrite yields_of_app. st_simpl. rewrite app_nil_r. eauto.
Qed.

Lemma inv_init : inv (PStart, empty_state) [].
Proof. split; [apply data_inv_init|done]. Qed.

Lemma inv_step c tr c' evs :
  inv c tr → step w paths ignore_logs num_procs c = (c', evs) →
  inv c' (tr ++ evs).
Proof.
  destruct c as [ctl st]. intros [Hd Hc] Hstep. unfold inv in *.
  st_simpl. unfold step in Hstep.
  destruct ctl as [|[|k]| |[|f rest]|e]; st_simpl; unfold ctl_inv in *.
  - injection Hstep as <- <-. rewrite app_nil_r. split.
    + by apply data_inv_path_gen.
    + st_simpl. pose proof (di_cap _ _ Hd). subst st.
      st_simpl. rewrite size_empty. lia.
  - injection Hstep as <- <-. by rewrite app_nil_r.
  - pose proof (advance_spec w ignore_logs st) as Hadv.
    destruct (advance w ignore_logs st) as [[st'|e] evs'];
      inversion Hadv; subst; injection Hstep as <- <-.
    + rewrite app_assoc. split.
      * apply data_inv_path_gen, data_inv_open; [by apply data_inv_ls|lia].
      * st_simpl. rewrite size_union, size_singleton; [lia|].
        pose proof (di_lt _ _ Hd (next_fd st)). set_solver by lia.
    + split; [by apply data_inv_path_gen, data_inv_ls|]. st_simpl. lia.
    + split; [by apply data_inv_ls|done].
  - destruct (decide (read_fds st = ∅)); injection Hstep as <- <-;
      rewrite app_nil_r; [done|]. split; [by apply data_inv_tick|done].
  - injection Hstep as <- <-. by rewrite app_nil_r.
  - destruct (procs st !! f) as [p|] eqn:Hp;
      [|injection Hstep as <- <-; by rewrite app_nil_r].
    destruct (tb_fps st !! f) as [[|r recs]|] eqn:Hf;
      [| |injection Hstep as <- <-; by rewrite app_nil_r].
    + assert (f ∈ read_fds st) as Hin.
      { rewrite <- (di_tbs _ _ Hd). apply elem_of_dom. eauto. }
      destruct (decide (f ∈ read_fds st)) as [_|]; [|done].
      pose proof (data_inv_retire st tr f (dump_rcode w p) Hd Hin Hf) as Hd1.
      assert (size (read_fds (retire f st)) < num_procs) as Hlt.
      { st_simpl. rewrite size_difference by set_solver.
        rewrite size_singleton. pose proof (di_cap _ _ Hd).
        destruct (decide (size (read_fds st) = 0)) as [Hz|]; [|lia].
        apply size_empty_iff in Hz. set_solver. }
      pose proof (advance_spec w ignore_logs (retire f st)) as Hadv.
      destruct (advance w ignore_logs (retire f st)) as [[st'|e] evs'];
        inversion Hadv; subst; injection Hstep as <- <-;
        rewrite (cons_middle _ tr), !app_assoc.
      * split; [|done].
        change (next_fd st) with (next_fd (retire f st)).
        apply data_inv_path_gen, data_inv_open; [by apply data_inv_ls|done].
      * split; [|done]. by apply data_inv_path_gen, data_inv_ls.
      * split; [|done]. by apply data_inv_ls.
    + injection Hstep as <- <-. split; [|done]. by apply data_inv_yield.
  - injection Hstep as <- <-. by rewrite app_nil_r.
Qed.

Lemma inv_steps n c tr c' evs :
  inv c tr → steps w paths ignore_logs num_procs n c = (c', evs) →
  inv c' (tr ++ evs).
Proof.
  revert c tr c' evs. induction n as [|n IH]; intros c tr c' evs Hinv Hsteps.
  { injection Hsteps as <- <-. by rewrite app_nil_r. }
  simpl in Hsteps.
  destruct (step w paths ignore_logs num_procs c) as [c1 evs1] eqn:Hstep.
  destruct (steps w paths ignore_logs num_procs n c1) as [c2 evs2] eqn:Hrest.
  injection Hsteps as <- <-. rewrite app_assoc.
  eapply IH; [|done]. by eapply inv_step.
Qed.

(** *** The generator protocol *)

Lemma yielded_advance (ls : list string) (tail : list (event record)) :
  (tail = [] ∨ ∃ f p, tail = [EvSpawn f p]) →
  yielded (map EvLs ls ++ tail) = None ∧ yields (map EvLs ls ++ tail) = [].
Proof.
  intros Htail. rewrite yields_app, yields_ls.
  destruct Htail as [->|(f & p & ->)]; (split; [|done]).
  - rewrite app_nil_r. by destruct ls as [|? [|? ?]].
  - by destruct ls as [|? [|? ?]].
Qed.

(** A round either hands one record to the caller, and then the body is
    suspended in the [for] loop, or hands over nothing. *)
Lemma step_yield c c' evs :
  step w paths ignore_logs num_procs c = (c', evs) →
  (∃ f r rest, evs = [EvYield f r] ∧ c'.1 = PFor rest)
  ∨ (yielded evs = None ∧ yields evs = []).
Proof.
  destruct c as [ctl st]. unfold step.
  destruct ctl as [|[|k]| |[|f rest]|e]; intros Hstep;
    try (injection Hstep as <- <-; by right).
  - pose proof (advance_spec w ignore_logs st) as Hadv.
    destruct (advance w ignore_logs st) as [[st'|e] evs'];
      inversion Hadv; subst; injection Hstep as <- <-; right.
    + apply yielded_advance. eauto.
    + rewrite <- (app_nil_r (map _ _)). apply yielded_advance. eauto.
    + rewrite <- (app_nil_r (map _ _)). apply yielded_advance. eauto.
  - destruct (decide (read_fds st = ∅)) as [_|_]; injection Hstep as <- <-;
      by right.
  - destruct (procs st !! f) as [p|]; [|injection Hstep as <- <-; by right].
    destruct (tb_fps st !! f) as [[|r recs]|];
      [| |injection Hstep as <- <-; by right].
    + destruct (decide (f ∈ read_fds st)) as [_|_];
        [|injection Hstep as <- <-; by right].
      pose proof (advance_spec w ignore_logs (retire f st)) as Hadv.
      destruct (advance w ignore_logs (retire f st)) as [[st'|e] evs'];
        inversion Hadv as [ls ? ? ?|ls ?|? ls ?]; subst;
        injection Hstep as <- <-; right;
        (split; [done|]); change (yields (?e :: ?l)) with (yields l).
      * apply yielded_advance. eauto.
      * apply yields_ls.
      * apply yields_ls.
    + injection Hstep as <- <-. left. by exists f, r, rest.
Qed.

Lemma steps_done n o st :
  steps w paths ignore_logs num_procs n (PDone o, st) = ((PDone o, st), []).
Proof. induction n as [|n IH]; [done|]. simpl. by rewrite IH. Qed.

Lemma gen_next_steps n c o st' evs fuel :
  done_ctl c.1 = false →
  steps w paths ignore_logs num_procs n c = ((PDone o, st'), evs) →
  n < fuel →
  (∃ c1 evs1 r k evs2,
      gen_next w paths ignore_logs num_procs fuel c = Some (c1, evs1, Value r)
      ∧ k < n ∧ done_ctl c1.1 = false
      ∧ steps w paths ignore_logs num_procs k c1 = ((PDone o, st'), evs2)
      ∧ evs = evs1 ++ evs2 ∧ yields evs1 = [r])
  ∨ (∃ c1,
      gen_next w paths ignore_logs num_procs fuel c
      = Some (c1, evs, match o with None => StopIteration | Some e => Raise e end)
      ∧ yields evs = []).
Proof.
  revert c evs fuel. induction n as [|n IH]; intros c evs fuel Hnd Hsteps Hfuel.
  { injection Hsteps as -> <-. done. }
  destruct fuel as [|fuel]; [lia|]. simpl in Hsteps. simpl.
  destruct (step w paths ignore_logs num_procs c) as [c1 evs1] eqn:Hstep.
  destruct (steps w paths ignore_logs num_procs n c1) as [c2 evs2] eqn:Hrest.
  injection Hsteps as -> <-.
  destruct c as [ctl st]. simpl in Hnd. destruct ctl as [|k0| |cur0|o0]; try done; simpl;
    (destruct (step_yield _ _ _ Hstep) as [(f & r & rest & -> & Hctl)|[Hy Hys]];
     [ left; exists c1, [EvYield f r], r, n, evs2; simpl;
       split_and!; [done|lia|by rewrite Hctl|done..]
     | rewrite Hy; destruct c1 as [ctl1 st1];
       destruct (done_ctl ctl1) eqn:Hd1;
       [ destruct ctl1 as [| | | |o1]; try done;
         rewrite steps_done in Hrest; injection Hrest as <- <- <-;
         right; exists (PDone o1, st1); rewrite app_nil_r;
         destruct o1; by split
       | destruct (IH (ctl1, st1) evs2 fuel Hd1 Hrest ltac:(lia))
           as [(c3 & evs3 & r & k & evs4 & Hg & Hk & Hd3 & Hs & -> & Hr)
              |(c3 & Hg & Hr)];
         [ left; exists c3, (evs1 ++ evs3), r, k, evs4;
           destruct ctl1 as [|k1| |cur1|o1]; try done; simpl in *; rewrite Hg;
           rewrite yields_app, Hys, app_assoc;
           split_and!; (done || lia)
         | right; exists c3; destruct ctl1 as [|k1| |cur1|o1]; try done; simpl in *; rewrite Hg;
           rewrite yields_app, Hys, Hr; by split ] ] ]).
Qed.

Lemma drain_steps n c o st' evs fuel :
  done_ctl c.1 = false →
  steps w paths ignore_logs num_procs n c = ((PDone o, st'), evs) →
  n < fuel →
  drain w paths ignore_logs num_procs fuel c = Some (yields evs, o, evs).
Proof.
  revert c evs fuel. induction (lt_wf n) as [n _ IH].
  intros c evs fuel Hnd Hsteps Hfuel.
  destruct fuel as [|fuel]; [lia|].
  destruct (gen_next_steps n c o st' evs (S fuel) Hnd Hsteps Hfuel)
    as [(c1 & evs1 & r & k & evs2 & Hg & Hk & Hd1 & Hs & -> & Hr)|(c1 & Hg & Hr)].
  - cbn [drain]. rewrite Hg.
    rewrite (IH k Hk c1 evs2 fuel Hd1 Hs) by lia.
    by rewrite yields_app, Hr.
  - cbn [drain]. rewrite Hg, Hr. by destruct o.
Qed.

Section Enumerable.

(** Every root lists, to [files] in all. *)
Variable files : list string.
Hypothesis Henum : enumerate w ignore_logs (norm_paths paths) = ret files.

Local Abbreviation fill_inv := (fill_inv w paths ignore_logs num_procs files).
Local Abbreviation owed := (owed w).
Local Abbreviation rem := (rem w paths ignore_logs).
Local Abbreviation measure := (measure w paths ignore_logs num_procs).
Local Abbreviation good := (good w paths ignore_logs num_procs files).

Lemma fill_inv_init : fill_inv (PStart, empty_state) [].
Proof.
  exists files. split_and!; [|done..]. unfold gen_of, pending. simpl.
  by rewrite Henum.
Qed.

Lemma fill_inv_step c tr c' evs :
  inv c tr → fill_inv c tr →
  step w paths ignore_logs num_procs c = (c', evs) →
  fill_inv c' (tr ++ evs).
Proof.
  destruct c as [ctl st]. intros [Hd Hc] (pend & Hpend & Hfiles & Hfull) Hstep.
  unfold fill_inv, gen_of in *. st_simpl. unfold step in Hstep.
  unfold ctl_inv in Hc. clear Henum.
  assert (0 < size (read_fds st) ∨ read_fds st = ∅) as Hpos.
  { destruct (decide (size (read_fds st) = 0)) as [Hz|]; [|lia].
    apply size_empty_iff in Hz. right. set_solver. }
  assert (size ({[next_fd st]} ∪ read_fds st) = S (size (read_fds st)))
    as Hopen.
  { rewrite size_union, size_singleton; [done|].
    pose proof (di_lt _ _ Hd (next_fd st)). set_solver by lia. }
  assert (∀ f, f ∈ read_fds st →
    size ({[next_fd st]} ∪ read_fds st ∖ {[f]}) = size (read_fds st))
    as Hswap.
  { intros f Hin. rewrite size_union, size_singleton.
    - rewrite size_difference, size_singleton by set_solver.
      destruct Hpos as [?|Hpos]; [lia|set_solver].
    - pose proof (di_lt _ _ Hd (next_fd st)). set_solver by lia. }
  destruct ctl as [|[|k]| |[|f rest]|e]; st_simpl.
  - injection Hstep as <- <-. rewrite app_nil_r. exists pend.
    split_and!; [done..|]. st_simpl. subst st. st_simpl.
    rewrite size_empty. lia.
  - injection Hstep as <- <-. rewrite app_nil_r. exists pend.
    split_and!; [done..|]. st_simpl. intros Hne. specialize (Hfull Hne). lia.
  - pose proof (advance_spec w ignore_logs st) as Hadv.
    destruct (advance w ignore_logs st) as [[st'|e] evs'];
      inversion Hadv as [ls p g' Hp|ls Hp|e' ls Hp]; subst;
      injection Hstep as <- <-.
    + destruct (Hp pend Hpend) as (pend' & -> & Hpend').
      exists pend'. st_simpl. rewrite !spawns_app, spawns_ls, fmap_app.
      st_simpl. rewrite <- app_assoc. split_and!; [done..|].
      intros _. rewrite Hopen.
      assert (p :: pend' ≠ []) as Hne by done. specialize (Hfull Hne). lia.
    + specialize (Hp pend Hpend) as ->. exists []. st_simpl.
      rewrite !spawns_app, spawns_ls, !app_nil_r. split_and!; (done || congruence).
    + by destruct (Hp pend).
  - destruct (decide (read_fds st = ∅)); injection Hstep as <- <-;
      rewrite app_nil_r; exists pend; by split_and!.
  - injection Hstep as <- <-. rewrite app_nil_r. exists pend. by split_and!.
  - destruct (procs st !! f) as [p|] eqn:Hprocs;
      [|injection Hstep as <- <-; rewrite app_nil_r; exists pend; by split_and!].
    destruct (tb_fps st !! f) as [[|r recs]|] eqn:Hf;
      [| |injection Hstep as <- <-; rewrite app_nil_r; exists pend; by split_and!].
    + assert (f ∈ read_fds st) as Hin.
      { rewrite <- (di_tbs _ _ Hd). apply elem_of_dom. eauto. }
      destruct (decide (f ∈ read_fds st)) as [_|]; [|done].
      pose proof (advance_spec w ignore_logs (retire f st)) as Hadv.
      destruct (advance w ignore_logs (retire f st)) as [[st'|e] evs'];
        inversion Hadv as [ls p' g' Hp'|ls Hp'|e' ls Hp']; subst;
        injection Hstep as <- <-;
        rewrite (cons_middle _ tr), !spawns_app, ?spawns_ls; st_simpl.
      * destruct (Hp' pend Hpend) as (pend' & -> & Hpend').
        exists pend'. rewrite !fmap_app. st_simpl.
        rewrite <- !app_assoc. split_and!; [done..|].
        intros _. rewrite (Hswap f Hin).
        assert (p' :: pend' ≠ []) as Hne by done. by specialize (Hfull Hne).
      * specialize (Hp' pend Hpend) as ->. exists [].
        rewrite !app_nil_r. split_and!; (done || congruence).
      * by destruct (Hp' pend).
    + injection Hstep as <- <-. exists pend. rewrite spawns_app. st_simpl.
      rewrite app_nil_r. by split_and!.
  - injection Hstep as <- <-. rewrite app_nil_r. exists pend. by split_and!.
Qed.

Lemma fill_inv_steps n c tr c' evs :
  inv c tr → fill_inv c tr →
  steps w paths ignore_logs num_procs n c = (c', evs) →
  fill_inv c' (tr ++ evs).
Proof.
  revert c tr c' evs. induction n as [|n IH]; intros c tr c' evs Hi Hf Hsteps.
  { injection Hsteps as <- <-. by rewrite app_nil_r. }
  simpl in Hsteps.
  destruct (step w paths ignore_logs num_procs c) as [c1 evs1] eqn:Hstep.
  destruct (steps w paths ignore_logs num_procs n c1) as [c2 evs2] eqn:Hrest.
  injection Hsteps as <- <-. rewrite app_assoc.
  eapply IH; [| |done]; [by eapply inv_step|by eapply fill_inv_step].
Qed.

(** Past the initial activation the pool holds as many sources as the
    capacity and the paths not yet retired allow. *)
Lemma pool_full c tr :
  inv c tr → fill_inv c tr → filled c.1 = true →
  size (read_fds c.2) = num_procs `min` (length files - length (waits tr))
  ∧ (length (spawns tr) < length files → size (read_fds c.2) = num_procs).
Proof.
  destruct c as [ctl st]. intros [Hd Hc] (pend & Hpend & Hfiles & Hfull) Hctl.
  st_simpl.
  assert (length (spawns tr) = next_fd st) as Hsp.
  { rewrite <- (length_fmap fst), (di_fds _ _ Hd). apply length_seq. }
  assert (length (spawns tr) + length pend = length files) as Hlen.
  { rewrite <- Hfiles, length_app, length_fmap. done. }
  pose proof (di_waits _ _ Hd) as Hw. pose proof (di_cap _ _ Hd) as Hcap.
  assert (pend ≠ [] → size (read_fds st) = num_procs) as Hfull'.
  { destruct ctl as [| | | |[|]]; done. }
  destruct pend as [|p pend].
  - simpl in Hlen. split; lia.
  - assert (size (read_fds st) = num_procs) by (by apply Hfull').
    simpl in Hlen. split; lia.
Qed.

(** [select] keeps its promise. *)
Hypothesis Hsel : valid_select w.

Lemma for_inv_step c tr c' evs :
  inv c tr → fill_inv c tr → for_inv c →
  step w paths ignore_logs num_procs c = (c', evs) →
  for_inv c'.
Proof.
  destruct c as [ctl st]. intros [Hd Hc] (pend & Hpend & _ & _) Hfor Hstep.
  unfold for_inv, gen_of in *. st_simpl. unfold step in Hstep.
  destruct ctl as [|[|k]| |[|f rest]|e]; st_simpl.
  - by injection Hstep as <- <-.
  - by injection Hstep as <- <-.
  - pose proof (advance_spec w ignore_logs st) as Hadv.
    destruct (advance w ignore_logs st) as [[st'|e] evs'];
      inversion Hadv as [ls p g' Hp|ls Hp|e' ls Hp]; subst;
      injection Hstep as <- <-; [done..|].
    by destruct (Hp pend).
  - destruct (decide (read_fds st = ∅)) as [|Hne];
      injection Hstep as <- <-; [done|]. st_simpl.
    destruct (Hsel (nselect st) (elements (read_fds st))) as (_ & Hnd & Hsub).
    { intros Hnil. apply elements_empty_inv in Hnil. by apply leibniz_equiv in Hnil. }
    { apply NoDup_elements. }
    split; [done|]. intros f Hf. apply elem_of_elements. by apply Hsub.
  - by injection Hstep as <- <-.
  - destruct Hfor as [Hnd Hsub]. apply NoDup_cons in Hnd as [Hnotin Hnd].
    assert (f ∈ read_fds st) as Hin by (apply Hsub; left).
    assert (is_Some (procs st !! f)) as [p Hprocs].
    { apply elem_of_dom. by rewrite (di_procs _ _ Hd). }
    assert (is_Some (tb_fps st !! f)) as [recs Hf].
    { apply elem_of_dom. by rewrite (di_tbs _ _ Hd). }
    rewrite Hprocs, Hf in Hstep. destruct recs as [|r recs].
    + destruct (decide (f ∈ read_fds st)) as [_|]; [|done].
      assert (∀ f', f' ∈ rest → f' ∈ read_fds st ∖ {[f]}) as Hrest.
      { intros f' Hf'. apply elem_of_difference. split; [apply Hsub; by right|].
        intros ->%elem_of_singleton. done. }
      pose proof (advance_spec w ignore_logs (retire f st)) as Hadv.
      destruct (advance w ignore_logs (retire f st)) as [[st'|e] evs'];
        inversion Hadv as [ls p' g' Hp'|ls Hp'|e' ls Hp']; subst;
        injection Hstep as <- <-; st_simpl.
      * split; [done|]. intros f' Hf'. apply elem_of_union. right. by apply Hrest.
      * split; [done|]. done.
      * by destruct (Hp' pend).
    + injection Hstep as <- <-. st_simpl. split; [done|].
      intros f' Hf'. apply Hsub. by right.
  - by injection Hstep as <- <-.
Qed.

(** *** Termination *)

Lemma work_insert_fresh f recs (m : gmap fd (list record)) :
  m !! f = None → work (<[f := recs]> m) = S (length recs) + work m.
Proof. intros Hf. unfold work. rewrite map_fold_insert_L; [done| |done]. intros. lia. Qed.

Lemma work_delete f recs (m : gmap fd (list record)) :
  m !! f = Some recs → work m = S (length recs) + work (delete f m).
Proof.
  intros Hf. unfold work.
  rewrite (map_fold_delete_L _ _ f recs m); [done| |done]. intros. lia.
Qed.

Lemma work_update f r recs (m : gmap fd (list record)) :
  m !! f = Some (r :: recs) → S (work (<[f := recs]> m)) = work m.
Proof.
  intros Hf. rewrite <- insert_delete_eq.
  rewrite work_insert_fresh by apply lookup_delete_eq.
  rewrite (work_delete f (r :: recs) m Hf). simpl. lia.
Qed.

Lemma measure_step c tr c' evs :
  inv c tr → fill_inv c tr → for_inv c → done_ctl c.1 = false →
  step w paths ignore_logs num_procs c = (c', evs) →
  measure c' < measure c.
Proof.
  destruct c as [ctl st].
  intros [Hd Hc] (pend & Hpend & _ & _) Hfor Hnd Hstep.
  unfold for_inv, measure, rem, gen_of in *. st_simpl. unfold step in Hstep.
  rewrite Hpend. clear Henum.
  assert (tb_fps st !! next_fd st = None) as Hfresh.
  { apply not_elem_of_dom. rewrite (di_tbs _ _ Hd). intros Hin.
    pose proof (di_lt _ _ Hd _ Hin). lia. }
  destruct ctl as [|[|k]| |[|f rest]|e]; st_simpl; [| | | | | |done].
  - injection Hstep as <- <-. st_simpl. rewrite Hpend. lia.
  - injection Hstep as <- <-. st_simpl. rewrite Hpend. lia.
  - pose proof (advance_spec w ignore_logs st) as Hadv.
    destruct (advance w ignore_logs st) as [[st'|e] evs'];
      inversion Hadv as [ls p g' Hp|ls Hp|e' ls Hp]; subst;
      injection Hstep as <- <-; st_simpl.
    + destruct (Hp pend Hpend) as (pend' & -> & Hpend'). rewrite Hpend'.
      rewrite work_insert_fresh by done. msimpl. lia.
    + specialize (Hp pend Hpend) as ->. msimpl. lia.
    + by destruct (Hp pend).
  - destruct (decide (read_fds st = ∅)) as [|Hne];
      injection Hstep as <- <-; st_simpl; [lia|]. rewrite Hpend.
    destruct (Hsel (nselect st) (elements (read_fds st))) as (Hsome & _ & _).
    { intros Hnil. apply elements_empty_inv in Hnil. by apply leibniz_equiv in Hnil. }
    { apply NoDup_elements. }
    destruct (select w (nselect st) (elements (read_fds st))); [done|lia].
  - injection Hstep as <- <-. st_simpl. rewrite Hpend. lia.
  - destruct Hfor as [Hnodup Hsub].
    assert (f ∈ read_fds st) as Hin by (apply Hsub; left).
    assert (is_Some (procs st !! f)) as [p Hprocs].
    { apply elem_of_dom. by rewrite (di_procs _ _ Hd). }
    assert (is_Some (tb_fps st !! f)) as [recs Hf].
    { apply elem_of_dom. by rewrite (di_tbs _ _ Hd). }
    rewrite Hprocs, Hf in Hstep. destruct recs as [|r recs].
    + destruct (decide (f ∈ read_fds st)) as [_|]; [|done].
      pose proof (work_delete f [] _ Hf) as Hwork. simpl in Hwork.
      assert (delete f (tb_fps st) !! next_fd st = None) as Hfresh'.
      { rewrite lookup_delete_ne; [done|]. intros ->.
        pose proof (di_lt _ _ Hd _ Hin). lia. }
      pose proof (advance_spec w ignore_logs (retire f st)) as Hadv.
      destruct (advance w ignore_logs (retire f st)) as [[st'|e] evs'];
        inversion Hadv as [ls p' g' Hp'|ls Hp'|e' ls Hp']; subst;
        injection Hstep as <- <-; st_simpl.
      * destruct (Hp' pend Hpend) as (pend' & -> & Hpend'). rewrite Hpend'.
        rewrite work_insert_fresh by done. msimpl. destruct rest; lia.
      * specialize (Hp' pend Hpend) as ->. msimpl. destruct rest; lia.
      * by destruct (Hp' pend).
    + injection Hstep as <- <-. st_simpl. rewrite Hpend.
      pose proof (work_update f r recs _ Hf). destruct rest; lia.
Qed.

Lemma good_init : good (PStart, empty_state) [].
Proof. split_and!; [apply inv_init|apply fill_inv_init|done]. Qed.

Lemma good_step c tr c' evs :
  good c tr → step w paths ignore_logs num_procs c = (c', evs) →
  good c' (tr ++ evs).
Proof.
  intros (Hi & Hf & Hfor) Hstep. split_and!.
  - by eapply inv_step.
  - by eapply fill_inv_step.
  - by eapply for_inv_step.
Qed.

(** The body reaches its end, without raising. *)
Lemma run_terminates c tr :
  good c tr →
  ∃ n st' evs,
    steps w paths ignore_logs num_procs n c = ((PDone None, st'), evs)
    ∧ good (PDone None, st') (tr ++ evs).
Proof.
  remember (measure c) as m eqn:Hm. revert c tr Hm.
  induction (lt_wf m) as [m _ IH]. intros c tr -> Hgood.
  destruct (done_ctl c.1) eqn:Hdone.
  - destruct c as [[| | | |[e|]] st]; try done.
    + by destruct Hgood as (_ & _ & ?).
    + exists 0, st, []. by rewrite app_nil_r.
  - destruct (step w paths ignore_logs num_procs c) as [c1 evs1] eqn:Hstep.
    destruct Hgood as (Hi & Hf & Hfor).
    pose proof (measure_step _ _ _ _ Hi Hf Hfor Hdone Hstep) as Hlt.
    destruct (IH _ Hlt c1 (tr ++ evs1) eq_refl) as (n & st' & evs2 & Hsteps & Hgood').
    { by eapply good_step. }
    exists (S n), st', (evs1 ++ evs2). simpl. rewrite Hstep, Hsteps.
    split; [done|]. by rewrite app_assoc.
Qed.

(** *** The complete run *)

Lemma run_complete :
  ∃ n st' evs,
    steps w paths ignore_logs num_procs n (PStart, empty_state)
    = ((PDone None, st'), evs)
    ∧ good (PDone None, st') evs.
Proof.
  destruct (run_terminates (PStart, empty_state) [] good_init)
    as (n & st' & evs & Hsteps & Hgood).
  by exists n, st', evs.
Qed.

Lemma complete_sources st' evs :
  good (PDone None, st') evs →
  (0 < num_procs → (spawns evs).*2 = files)
  ∧ (num_procs = 0 → spawns evs = [])
  ∧ NoDup (spawns evs).*1
  ∧ (∀ f p, (f, p) ∈ spawns evs → yields_of f evs = stream_of w p)
  ∧ yields evs ≡ₚ concat (map (stream_of w) (spawns evs).*2).
Proof.
  intros ([Hd Hc] & (pend & Hpend & Hfiles & Hfull) & _).
  st_simpl. unfold ctl_inv in Hc.
  assert (∀ f p, (f, p) ∈ spawns evs → yields_of f evs = stream_of w p)
    as Hsrc.
  { intros f p Hfp. apply (di_done _ _ Hd f p Hfp). rewrite Hc. set_solver. }
  split_and!; [| | |done|].
  - intros Hpos. destruct pend as [|p pend]; [by rewrite app_nil_r in Hfiles|].
    assert (p :: pend ≠ []) as Hne by done. specialize (Hfull Hne).
    rewrite Hc, size_empty in Hfull. lia.
  - intros Hz. pose proof (di_within _ _ Hd) as Hw. rewrite Hz in Hw.
    by apply (within_zero 0).
  - rewrite (di_fds _ _ Hd). apply NoDup_seq.
  - rewrite (yields_perm (next_fd st')) by apply (di_fresh _ _ Hd).
    rewrite <- (di_fds _ _ Hd).
    assert (map (λ f, yields_of f evs) (spawns evs).*1
            = map (stream_of w) (spawns evs).*2) as ->; [|done].
    revert Hsrc. generalize (spawns evs) as sp.
    induction sp as [|[f p] sp IH]; intros Hsrc; [done|]. simpl.
    rewrite (Hsrc f p) by left. f_equal. apply IH.
    intros f' p' Hin. apply Hsrc. by right.
Qed.

(** C1: when every root lists and [select] keeps its promise, iterating
    over [readtb] ends normally, with the same records [rs] and the same
    things done [evs] for every sufficient fuel, and: the sources created
    have distinct pipes; the records handed over that came from one source
    are, in the order they were handed over, exactly the records of that
    source's file in the file's order; the number of records handed over is
    the sum of the lengths of the files of the sources; as a multiset they
    are the union of those files; and for [num_procs] of at least one the
    files of the sources are the enumerated files, each once, in order (for
    zero, none is enumerated). *)
Theorem readtb_delivers_every_record :
  ∃ fuel0 rs evs,
    (∀ fuel, fuel0 ≤ fuel →
       drain w paths ignore_logs num_procs fuel
         (readtb paths ignore_logs num_procs).1
       = Some (rs, None, evs))
    ∧ rs = yields evs
    ∧ (0 < num_procs → (spawns evs).*2 = files)
    ∧ (num_procs = 0 → spawns evs = [])
    ∧ NoDup (spawns evs).*1
    ∧ (∀ f p, (f, p) ∈ spawns evs →
         yields_of f evs = stream_of w p
         ∧ yields_of f evs `sublist_of` rs)
    ∧ length rs
      = sum_list_with (λ p, length (stream_of w p)) (spawns evs).*2
    ∧ rs ≡ₚ concat (map (stream_of w) (spawns evs).*2).
Proof.
  destruct run_complete as (n & st' & evs & Hsteps & Hgood).
  destruct (complete_sources _ _ Hgood) as (Hall & Hzero & Hnd & Hsrc & Hperm).
  exists (S n), (yields evs), evs. split_and!; try done.
  - intros fuel Hfuel.
    apply (drain_steps n _ None st'); [done|exact Hsteps|lia].
  - intros f p Hfp. split; [by apply Hsrc|apply yields_of_sublist].
  - rewrite Hperm. apply length_concat_map.
Qed.

End Enumerable.

(** C2: at every point of a run of [readtb] at most [num_procs] sources
    are created and not retired; they are the descriptors in [read_fds] and
    the processes in [procs]; and whenever the body is past the initial
    activation (so at every [yield] and at its end), with every root
    listing, their number is the smaller of [num_procs] and the number of
    paths not yet retired: [num_procs] as long as a path is not yet
    activated. *)
Theorem readtb_pool_bounded n :
  let '(c, tr) := steps w paths ignore_logs num_procs n (PStart, empty_state) in
  within num_procs 0 tr
  ∧ active_after 0 tr = size (read_fds c.2)
  ∧ size (read_fds c.2) ≤ num_procs
  ∧ dom (procs c.2) = read_fds c.2
  ∧ ∀ files,
      enumerate w ignore_logs (norm_paths paths) = ret files →
      filled c.1 = true →
      size (read_fds c.2) = num_procs `min` (length files - length (waits tr))
      ∧ (length (spawns tr) < length files → size (read_fds c.2) = num_procs).
Proof.
  destruct (steps w paths ignore_logs num_procs n (PStart, empty_state))
    as [c tr] eqn:Hsteps.
  pose proof (inv_steps n _ [] _ _ inv_init Hsteps) as Hinv. simpl in Hinv.
  destruct Hinv as [Hd Hc].
  split_and!; [apply (di_within _ _ Hd)|apply (di_active _ _ Hd)
              |apply (di_cap _ _ Hd)|apply (di_procs _ _ Hd)|].
  intros files Henum Hctl. apply pool_full; [done| |done].
  apply (fill_inv_steps files n _ [] _ _ inv_init (fill_inv_init files Henum) Hsteps).
Qed.

End Reader.

(** ** A root that cannot be enumerated *)

Section FailingRoot.

Context {record : Type}.
Variable w : World record.
Variable paths : paths_arg.
Variable ignore_logs : bool.
Variable np : nat.
Variables (pre post : list string) (bad : string) (e0 : exn).
Variable files_pre : list string.
Implicit Types (st : state record) (tr evs : list (event record)) (f : fd).
Implicit Types (c : config record).

(** The roots are [pre], then [bad], then [post]; the roots of [pre] list,
    to [files_pre] in all, and [bad] does not. *)
Hypothesis Hpaths : norm_paths paths = pre ++ bad :: post.
Hypothesis Henum : enumerate w ignore_logs pre = ret files_pre.
Hypothesis Hbad : root_paths w ignore_logs bad = raise e0.
Hypothesis Hsel : valid_select w.

Local Abbreviation ext := (ext_state (bad :: post)).
Local Abbreviation ext_g := (ext_pg (bad :: post)).
Local Abbreviation good0 := (good w (PathList pre) ignore_logs (S np) files_pre).

Lemma pg_roots_next_ext roots st :
  match pg_roots_next w ignore_logs roots st with
  | PgYield g st1 evs =>
      ∃ st1',
        pg_roots_next w ignore_logs (roots ++ bad :: post) (ext st)
        = PgYield (ext_g g) st1' evs
        ∧ set_path_gen (Some (ext_g g)) st1' = ext (set_path_gen (Some g) st1)
  | PgStop evs =>
      pg_roots_next w ignore_logs (roots ++ bad :: post) (ext st)
      = PgRaise e0 (evs ++ [EvLs bad])
  | PgRaise e evs =>
      pg_roots_next w ignore_logs (roots ++ bad :: post) (ext st)
      = PgRaise e evs
  end.
Proof.
  induction roots as [|root roots IH]; cbn [app pg_roots_next].
  { by rewrite Hbad. }
  destruct (root_paths w ignore_logs root) as [[|p rest]|e]; [| |done].
  - destruct (pg_roots_next w ignore_logs roots st) as [g st1 evs|evs|e evs];
      cbn [pg_cons].
    + destruct IH as (st1' & -> & Heq). by exists st1'.
    + by rewrite IH.
    + by rewrite IH.
  - eexists. split; reflexivity.
Qed.

(** One [path_gen.next()] with the longer list of roots: the same as with
    [pre] alone, until the generator over [pre] is exhausted; then [bad]
    is listed, and the error raised. *)
Lemma advance_ext st :
  is_Some (path_gen st) →
  match advance w ignore_logs st with
  | (inl st1, evs) =>
      match path_gen st1 with
      | Some _ => advance w ignore_logs (ext st) = (inl (ext st1), evs)
      | None => advance w ignore_logs (ext st) = (inr e0, evs ++ [EvLs bad])
      end
  | (inr e, evs) => advance w ignore_logs (ext st) = (inr e, evs)
  end.
Proof.
  intros [g Hg]. unfold advance, ext_state.
  cbn [path_gen set_path_gen]. rewrite Hg. cbn [fmap option_fmap option_map].
  destruct g as [[|p rest] roots];
    cbn [_path_gen_next pg_cur pg_roots ext_pg]; [|done].
  pose proof (pg_roots_next_ext roots st) as Hext. unfold ext_state in Hext.
  rewrite Hg in Hext. cbn [fmap option_fmap option_map] in Hext.
  destruct (pg_roots_next w ignore_logs roots st) as [g st1 evs|evs|e evs].
  - destruct Hext as (st1' & -> & Heq). cbn [path_gen set_path_gen].
    unfold ret. f_equal. f_equal. exact Heq.
  - cbn [path_gen set_path_gen]. by rewrite Hext.
  - by rewrite Hext.
Qed.


(** How the control moves in one round. *)
Lemma step_ctl num_procs (paths0 : paths_arg) c c1 evs :
  step w paths0 ignore_logs num_procs c = (c1, evs) →
  match c.1 with
  | PStart => c1.1 = PFill num_procs
  | PFill O => c1.1 = PWhile
  | PFill (S k) => c1.1 = PFill k ∨ ∃ e, c1.1 = PDone (Some e)
  | PWhile => c1.1 = PDone None ∨ ∃ cur, c1.1 = PFor cur
  | PFor [] => c1.1 = PWhile
  | PFor (_ :: rest) => c1.1 = PFor rest ∨ ∃ e, c1.1 = PDone (Some e)
  | PDone o => c1.1 = PDone o
  end.
Proof.
  destruct c as [ctl st]. unfold step. cbn [fst].
  destruct ctl as [|[|k]| |[|f rest]|o]; try (by intros [= <- <-]).
  - destruct (advance w ignore_logs st) as [[st1|err] evs1]; intros [= <- <-];
      eauto.
  - destruct (decide (read_fds st = ∅)); intros [= <- <-]; eauto.
  - destruct (procs st !! f) as [p|]; [|intros [= <- <-]; eauto].
    destruct (tb_fps st !! f) as [[|r recs]|]; [| |intros [= <- <-]; eauto].
    + destruct (decide (f ∈ read_fds st)); [|intros [= <- <-]; eauto].
      destruct (advance w ignore_logs (retire f st)) as [[st1|err] evs1];
        intros [= <- <-]; eauto.
    + intros [= <- <-]. eauto.
Qed.

(** One round with the longer list of roots does what the round with
    [pre] alone does, until the generator over [pre] is exhausted: that
    round lists [bad] last and raises. *)
Lemma sim_step c tr c1 evs :
  good0 c tr → alive (S np) c →
  step w (PathList pre) ignore_logs (S np) c = (c1, evs) →
  (alive (S np) c1
   ∧ step w paths ignore_logs (S np) (c.1, ext c.2) = ((c1.1, ext c1.2), evs))
  ∨ (path_gen c1.2 = None ∧ c1.1 ≠ PStart
     ∧ ∃ st', step w paths ignore_logs (S np) (c.1, ext c.2)
              = ((PDone (Some e0), st'), evs ++ [EvLs bad])).
Proof.
  intros Hgood Halive Hstep.
  assert (good0 c1 (tr ++ evs)) as Hgood1
    by (eapply good_step; [exact Hsel|exact Hgood|exact Hstep]).
  destruct Hgood as ([Hd Hc] & _ & _).
  destruct Hgood1 as (_ & _ & Hfor1).
  destruct c as [ctl st]. unfold alive in *.
  unfold for_inv in Hfor1. cbn [fst snd] in *. unfold step in *.
  destruct ctl as [|[|k]| |[|f rest]|o]; try done.
  - injection Hstep as <- <-. left. subst st. cbn [fst snd]. split.
    + split; [by eexists|]. cbn. rewrite size_empty. lia.
    + by rewrite Hpaths.
  - injection Hstep as <- <-. left. destruct Halive as [Hg Hsize].
    cbn [fst snd]. split; [split; [done|lia]|done].
  - destruct Halive as [Hg Hsize].
    pose proof (advance_ext st Hg) as Hext.
    pose proof (advance_spec w ignore_logs st) as Hadv.
    destruct (advance w ignore_logs st) as [[st1|err] evs1];
      injection Hstep as <- <-; cbn [fst snd] in *; [|done].
    destruct (path_gen st1) as [g1|] eqn:Hg1.
    + left. rewrite Hext. split; [|done]. split; [by eexists|].
      inversion Hadv as [ls p g' Hp Heq|ls Hp Heq|]; subst;
        [|by cbn in Hg1].
      cbn. rewrite size_union, size_singleton; [lia|].
      pose proof (di_lt _ _ _ _ Hd (next_fd st)). set_solver by lia.
    + right. rewrite Hext. split_and!; [done..|]. by eexists.
  - destruct Halive as [Hg Hsize].
    destruct (decide (read_fds st = ∅)) as [Hempty|_].
    { rewrite Hempty, size_empty in Hsize. lia. }
    injection Hstep as <- <-. left. cbn [fst snd]. split; [by split|].
    change (read_fds (ext st)) with (read_fds st).
    destruct (decide (read_fds st = ∅)) as [Hempty|_]; [|done].
    rewrite Hempty, size_empty in Hsize. lia.
  - injection Hstep as <- <-. left. cbn [fst snd]. by split.
  - destruct Halive as [Hg Hsize].
    change (procs (ext st)) with (procs st).
    change (tb_fps (ext st)) with (tb_fps st).
    change (read_fds (ext st)) with (read_fds st).
    destruct (procs st !! f) as [p|];
      [|injection Hstep as <- <-; by cbn in Hfor1].
    destruct (tb_fps st !! f) as [[|r recs]|];
      [| |injection Hstep as <- <-; by cbn in Hfor1].
    + destruct (decide (f ∈ read_fds st)) as [Hin|];
        [|injection Hstep as <- <-; by cbn in Hfor1].
      change (retire f (ext st)) with (ext (retire f st)).
      assert (is_Some (path_gen (retire f st))) as Hg' by done.
      pose proof (advance_ext (retire f st) Hg') as Hext.
      pose proof (advance_spec w ignore_logs (retire f st)) as Hadv.
      destruct (advance w ignore_logs (retire f st)) as [[st1|err] evs1];
        injection Hstep as <- <-; cbn [fst snd] in *; [|done].
      destruct (path_gen st1) as [g1|] eqn:Hg1.
      * left. rewrite Hext. split; [|done]. split; [by eexists|].
        inversion Hadv as [ls p0 g' Hp Heq|ls Hp Heq|]; subst;
          [|by cbn in Hg1].
        cbn. rewrite size_union, size_singleton.
        -- rewrite size_difference by set_solver. rewrite size_singleton.
           assert (0 < size (read_fds st)); [|lia].
           destruct (decide (size (read_fds st) = 0)) as [Hz|]; [|lia].
           apply size_empty_iff in Hz. set_solver.
        -- pose proof (di_lt _ _ _ _ Hd (next_fd st)). set_solver by lia.
      * right. rewrite Hext. split_and!; [done..|]. by eexists.
    + injection Hstep as <- <-. left. cbn [fst snd]. split; [by split|done].
Qed.


(** No record is handed over while the pool is first filled; the loop
    over the pipes is reached with a live generator only when there are
    at least as many files as the pool holds. *)
Lemma unserved_step c tr c1 evs :
  good0 c tr → alive (S np) c → unserved (S np) files_pre c tr →
  step w (PathList pre) ignore_logs (S np) c = (c1, evs) →
  (match c.1 with PStart | PFill _ => yields (tr ++ evs) = [] | _ => True end)
  ∧ (alive (S np) c1 → unserved (S np) files_pre c1 (tr ++ evs)).
Proof.
  intros Hgood Halive Hun Hstep.
  pose proof (step_ctl _ _ _ _ _ Hstep) as Hctl.
  pose proof (step_yield _ _ _ _ _ _ _ Hstep) as Hy.
  destruct Hgood as ([Hd _] & (pend & _ & Hfiles & _) & _).
  assert (size (read_fds c.2) ≤ length files_pre) as Hle.
  { pose proof (di_waits _ _ _ _ Hd) as Hw.
    pose proof (f_equal length (di_fds _ _ _ _ Hd)) as Hfds.
    rewrite length_fmap, length_seq in Hfds.
    rewrite <- Hfiles, length_app, length_fmap. lia. }
  destruct c as [ctl st], c1 as [ctl1 st1].
  unfold unserved, alive in *. cbn [fst snd] in *.
  assert (∀ f r rest, evs = [EvYield f r] → ctl1 = PFor rest →
            match ctl with PStart | PFill _ => False | _ => True end) as Hno.
  { intros f r rest _ ->. destruct ctl as [|[|k]| |[|f' rest']|o]; try done.
    - by destruct Hctl as [?|[? ?]]. }
  destruct ctl as [|[|k]| |[|f rest]|o]; try done.
  - subst ctl1. destruct Hy as [(f & r & rest & ? & ?)|[_ Hy]]; [done|].
    by rewrite yields_app, Hun, Hy.
  - subst ctl1. split; [|intros [_ Hsize]; destruct Halive; lia].
    destruct Hy as [(f & r & rest & ? & ?)|[_ Hy]]; [done|].
    by rewrite yields_app, Hun, Hy.
  - assert (yields (tr ++ evs) = []) as Hnone.
    { destruct Hy as [(f & r & rest & Hev & Hc1)|[_ Hy]].
      - by destruct (Hno f r rest Hev Hc1).
      - by rewrite yields_app, Hun, Hy. }
    split; [done|]. by destruct Hctl as [->|[e ->]].
  - split; [done|]. by destruct Hctl as [->|[cur ->]].
  - by subst ctl1.
  - split; [done|]. by destruct Hctl as [->|[e ->]].
Qed.

(** The run with the longer list of roots follows the run over [pre]
    until the generator over [pre] is exhausted. *)
Lemma sim_run n c tr st' evs :
  good0 c tr → alive (S np) c → unserved (S np) files_pre c tr →
  steps w (PathList pre) ignore_logs (S np) n c = ((PDone None, st'), evs) →
  ∃ k stf evs1 c1,
    steps w paths ignore_logs (S np) k (c.1, ext c.2)
    = ((PDone (Some e0), stf), evs1 ++ [EvLs bad])
    ∧ good0 c1 (tr ++ evs1)
    ∧ path_gen c1.2 = None ∧ c1.1 ≠ PStart
    ∧ (yields (tr ++ evs1) = [] ∨ S np ≤ length files_pre).
Proof.
  revert c tr evs. induction n as [|n IH]; intros c tr evs Hgood Halive Hun Hsteps.
  { injection Hsteps as -> _. by destruct Halive. }
  cbn [steps] in Hsteps.
  destruct (step w (PathList pre) ignore_logs (S np) c) as [c1 evs1] eqn:Hstep.
  destruct (steps w (PathList pre) ignore_logs (S np) n c1) as [c2 evs2]
    eqn:Hrest.
  injection Hsteps as -> <-.
  assert (good0 c1 (tr ++ evs1)) as Hgood1
    by (eapply good_step; [exact Hsel|exact Hgood|exact Hstep]).
  destruct (unserved_step _ _ _ _ Hgood Halive Hun Hstep) as [Hfill Hun1].
  destruct (sim_step _ _ _ _ Hgood Halive Hstep)
    as [[Halive1 Hsim]|(Hnone & Hctl & stf & Hsim)].
  - destruct (IH c1 (tr ++ evs1) evs2 Hgood1 Halive1 (Hun1 Halive1) Hrest)
      as (k & stf & evs3 & c3 & Hk & Hgood3 & Hnone & Hctl & Hys).
    exists (S k), stf, (evs1 ++ evs3), c3. cbn [steps].
    rewrite Hsim, Hk, !app_assoc. done.
  - exists 1, stf, evs1, c1. cbn [steps]. rewrite Hsim, app_nil_r.
    split_and!; [done..|].
    destruct c as [ctl st]. unfold unserved in Hun. cbn [fst] in *.
    destruct ctl as [|k| |cur|o]; auto.
Qed.

(** The complete run: it ends with the error of [bad], raised when [bad]
    is listed, which is the last thing done; by then a source has been
    created for every file of [pre], in order, and for no other path; and
    when those files are fewer than the pool holds no record has been
    handed over. *)
Lemma failing_run :
  ∃ n stf evs1,
    steps w paths ignore_logs (S np) n (PStart, empty_state)
    = ((PDone (Some e0), stf), evs1 ++ [EvLs bad])
    ∧ (spawns evs1).*2 = files_pre
    ∧ (length files_pre ≤ np → yields evs1 = []).
Proof.
  pose proof (good_init w (PathList pre) ignore_logs (S np) files_pre Henum)
    as Hgood.
  destruct (run_terminates w (PathList pre) ignore_logs (S np) files_pre Hsel
              _ _ Hgood) as (n & st' & evs & Hsteps & _).
  destruct (sim_run n (PStart, empty_state) [] st' evs Hgood eq_refl eq_refl
              Hsteps)
    as (k & stf & evs1 & c1 & Hk & Hgood1 & Hnone & Hctl & Hys).
  exists k, stf, evs1. split_and!; [exact Hk| |].
  - destruct Hgood1 as (_ & (pend & Hpend & Hfiles & _) & _).
    destruct c1 as [ctl1 st1]. cbn [fst snd app] in *.
    unfold gen_of in Hpend. cbn [fst snd] in Hpend.
    destruct ctl1; try done; rewrite Hnone in Hpend;
      injection Hpend as <-; by rewrite app_nil_r in Hfiles.
  - intros Hlen. cbn [app] in Hys. destruct Hys as [Hys|Hys]; [done|lia].
Qed.

Lemma failing_drain :
  ∃ fuel0 rs evs1,
    (∀ fuel, fuel0 ≤ fuel →
       drain w paths ignore_logs (S np) fuel
         (readtb paths ignore_logs (S np)).1
       = Some (rs, Some e0, evs1 ++ [EvLs bad]))
    ∧ rs = yields evs1
    ∧ (spawns evs1).*2 = files_pre
    ∧ (length files_pre ≤ np → rs = []).
Proof.
  destruct failing_run as (n & stf & evs1 & Hsteps & Hsp & Hys).
  exists (S n), (yields evs1), evs1. split_and!; [|done..].
  intros fuel Hfuel.
  rewrite (drain_steps w paths ignore_logs (S np) n _ (Some e0) stf
             (evs1 ++ [EvLs bad])); [|done|exact Hsteps|lia].
  by rewrite yields_app, app_nil_r.
Qed.

End FailingRoot.

(** ** Laziness, capacity zero and enumeration failures *)

Section Laziness.

Context {record : Type}.
Implicit Types (w : World record) (paths : paths_arg).

(** C9: with [num_procs = 0] iterating over [readtb] ends at once and
    normally, with no record and having done nothing: no root is listed (so
    a root that does not exist raises nothing) and no process is started,
    whatever the files hold. *)
Theorem readtb_zero_procs w paths ignore_logs fuel :
  drain w paths ignore_logs 0 (3 + fuel) (readtb paths ignore_logs 0).1
  = Some ([], None, [])
  ∧ ∀ n, (steps w paths ignore_logs 0 n (PStart, empty_state)).2 = [].
Proof.
  split; [done|]. intros n.
  destruct n as [|[|[|n]]]; try done.
  cbn [steps step]. unfold set_path_gen, empty_state; cbn [read_fds].
  destruct (decide ((∅ : gset fd) = ∅)) as [_|]; [|done].
  by rewrite steps_done.
Qed.

Lemma pg_roots_next_failure w ignore_logs pre bad post st e :
  Forall (λ r, root_paths w ignore_logs r = ret []) pre →
  ls w bad = raise e →
  pg_roots_next w ignore_logs (pre ++ bad :: post) st
  = PgRaise (not_found bad) (map EvLs pre ++ [EvLs bad]).
Proof.
  intros Hpre Hbad. induction Hpre as [|r pre Hr _ IH]; simpl.
  - unfold root_paths. by rewrite Hbad.
  - by rewrite Hr, IH.
Qed.

Lemma first_next_failure w paths ignore_logs num_procs pre bad post e fuel :
  norm_paths paths = pre ++ bad :: post →
  Forall (λ r, root_paths w ignore_logs r = ret []) pre →
  ls w bad = raise e →
  ∃ st,
    gen_next w paths ignore_logs (S num_procs) (2 + fuel)
      (readtb paths ignore_logs (S num_procs)).1
    = Some ((PDone (Some (not_found bad)), st), map EvLs pre ++ [EvLs bad],
            Raise (not_found bad)).
Proof.
  intros Hpaths Hpre Hbad. eexists.
  cbn [readtb fst gen_next plus step advance set_path_gen empty_state
       path_gen _path_gen_next pg_cur pg_roots].
  rewrite Hpaths, (pg_roots_next_failure _ _ _ _ _ _ e Hpre Hbad).
  unfold raise. cbn [fst snd].
  assert (yielded (map (@EvLs record) pre ++ [EvLs bad]) = None) as ->.
  { by destruct pre as [|? [|? ?]]. }
  done.
Qed.

(** C10: the call of [readtb] returns the generator with its body not
    entered and does nothing else (no listing, no process); with a first
    root whose listing fails and [num_procs] of at least one, it is the
    first request for a record that lists the root and raises the error
    naming it. *)
Theorem readtb_is_lazy w paths ignore_logs num_procs root roots e fuel :
  norm_paths paths = root :: roots →
  ls w root = raise e →
  readtb (record:=record) paths ignore_logs (S num_procs)
  = ((PStart, empty_state), [])
  ∧ ∃ st,
      gen_next w paths ignore_logs (S num_procs) (2 + fuel)
        (readtb paths ignore_logs (S num_procs)).1
      = Some ((PDone (Some (not_found root)), st), [EvLs root],
              Raise (not_found root)).
Proof.
  intros Hpaths Hls. split; [done|].
  apply (first_next_failure w paths ignore_logs num_procs [] root roots e);
    by try constructor.
Qed.

(** C3, amended: with [num_procs] of at least one, let the listing of a
    root fail.  When every root before it lists to no path that is kept
    (so when it is the first), the iteration ends on the first request
    with the error naming that root, after listing the roots up to it: no
    source was created and no record handed over, whatever [select] does.
    In general, when the roots before it are enumerated and [select] keeps
    its promise, the iteration ends with the error naming that root; the
    error is raised when that root is listed, which is the last thing
    done: by then a source has been created for every path of the earlier
    roots, in order, and for no other path; records of those sources may
    have been handed over before, and none has when those paths are fewer
    than [num_procs] (the error then comes on the first request). *)
Theorem readtb_listing_failure_upfront
    w paths ignore_logs num_procs pre bad post e :
  norm_paths paths = pre ++ bad :: post →
  ls w bad = raise e →
  (Forall (λ r, root_paths w ignore_logs r = ret []) pre →
   ∀ fuel,
     drain w paths ignore_logs (S num_procs) (2 + fuel)
       (readtb paths ignore_logs (S num_procs)).1
     = Some ([], Some (not_found bad), map EvLs pre ++ [EvLs bad])
     ∧ spawns (map (@EvLs record) pre ++ [EvLs bad]) = []
     ∧ yields (map (@EvLs record) pre ++ [EvLs bad]) = [])
  ∧ (valid_select w →
     ∀ files_pre, enumerate w ignore_logs pre = ret files_pre →
     ∃ fuel0 rs evs1,
       (∀ fuel, fuel0 ≤ fuel →
          drain w paths ignore_logs (S num_procs) fuel
            (readtb paths ignore_logs (S num_procs)).1
          = Some (rs, Some (not_found bad), evs1 ++ [EvLs bad]))
       ∧ rs = yields evs1
       ∧ (spawns evs1).*2 = files_pre
       ∧ (length files_pre < S num_procs → rs = [])).
Proof.
  intros Hpaths Hbad. split.
  - intros Hpre fuel.
    destruct (first_next_failure w paths ignore_logs num_procs pre bad post e
                fuel Hpaths Hpre Hbad) as [st Hnext].
    split_and!.
    + change (2 + fuel) with (S (S fuel)) in *. cbn [drain]. by rewrite Hnext.
    + by rewrite spawns_app, spawns_ls.
    + by rewrite yields_app, yields_ls.
  - intros Hsel files_pre Henum.
    assert (root_paths w ignore_logs bad = raise (not_found bad)) as Hroot.
    { unfold root_paths. by rewrite Hbad. }
    destruct (failing_drain w paths ignore_logs num_procs pre post bad
                (not_found bad) files_pre Hpaths Henum Hroot Hsel)
      as (fuel0 & rs & evs1 & Hdrain & Hrs & Hsp & Hnone).
    exists fuel0, rs, evs1. split_and!; [done..|]. intros Hlen. apply Hnone. lia.
Qed.

End Laziness.

(** ** Log filtering *)

Section LogFilter.

Context {record : Type}.
Implicit Types (w : World record) (paths : paths_arg).


Lemma filter_keep_empty_basename (all_paths : list string) x :
  x ∈ all_paths → basename x = EmptyString →
  filter_keep all_paths = raise IndexError.
Proof.
  intros Hin Hx. induction all_paths as [|y l IH]; [by apply elem_of_nil in Hin|].
  cbn [filter_keep]. unfold keep_file.
  destruct (basename y) as [|a b] eqn:Hy; [done|].
  apply elem_of_cons in Hin as [->|Hin]; [congruence|].
  by rewrite (IH Hin).
Qed.



End LogFilter.

(** ** Exit statuses of the dump processes *)

Section ExitStatus.

Context {record : Type}.
Variable w : World record.
Variable rc : string → Z.
Variable paths : paths_arg.
Variable ignore_logs : bool.
Variable num_procs : nat.
Implicit Types (st : state record) (c : config record).

Lemma pg_roots_next_rcode roots st :
  pg_roots_next (with_rcode rc w) ignore_logs roots st
  = pg_roots_next w ignore_logs roots st.
Proof.
  induction roots as [|root roots IH]; [done|]. simpl.
  change (root_paths (with_rcode rc w) ignore_logs root)
    with (root_paths w ignore_logs root).
  destruct (root_paths w ignore_logs root) as [[|p rest]|e]; [|done..].
  by rewrite IH.
Qed.

Lemma advance_rcode st :
  advance (with_rcode rc w) ignore_logs st = advance w ignore_logs st.
Proof.
  unfold advance, _path_gen_next. destruct (path_gen st) as [[[|p rest] roots]|];
    simpl; [|done..].
  by rewrite pg_roots_next_rcode.
Qed.

Lemma step_rcode c :
  (step (with_rcode rc w) paths ignore_logs num_procs c).1
  = (step w paths ignore_logs num_procs c).1
  ∧ map erase_rcode (step (with_rcode rc w) paths ignore_logs num_procs c).2
    = map erase_rcode (step w paths ignore_logs num_procs c).2.
Proof.
  destruct c as [ctl st]. unfold step.
  destruct ctl as [|[|k]| |[|f rest]|e]; try done.
  - rewrite advance_rcode. by destruct (advance w ignore_logs st) as [[|] ?].
  - destruct (procs st !! f) as [p|]; [|done].
    destruct (tb_fps st !! f) as [[|r recs]|]; [|done..].
    destruct (decide (f ∈ read_fds st)); [|done].
    rewrite advance_rcode.
    by destruct (advance w ignore_logs (retire f st)) as [[|] ?].
Qed.

Lemma yielded_erase (evs : list (event record)) :
  yielded (map erase_rcode evs) = yielded evs.
Proof. by destruct evs as [|[] [|]]. Qed.

Lemma gen_next_rcode fuel c :
  erase_next (gen_next (with_rcode rc w) paths ignore_logs num_procs fuel c)
  = erase_next (gen_next w paths ignore_logs num_procs fuel c).
Proof.
  revert c. induction fuel as [|fuel IH]; intros c; [done|]. simpl.
  destruct (done_ctl c.1) eqn:Hdone.
  { by destruct c as [[| | | |o] st]. }
  destruct (step_rcode c) as [Hc Hevs].
  destruct (step (with_rcode rc w) paths ignore_logs num_procs c) as [c1 evs1].
  destruct (step w paths ignore_logs num_procs c) as [c2 evs2].
  simpl in Hc, Hevs. subst c2.
  assert (yielded evs1 = yielded evs2) as Hy.
  { by rewrite <- (yielded_erase evs1), Hevs, yielded_erase. }
  specialize (IH c1).
  destruct c as [[| | | |o] st]; try done; simpl; rewrite Hy;
    (destruct (yielded evs2); [simpl; by rewrite Hevs|]);
    (destruct c1 as [[| | | |[|]] st1]; simpl in *;
     try (by rewrite Hevs);
     destruct (gen_next (with_rcode rc w) paths ignore_logs num_procs fuel _)
       as [[[? ?] ?]|];
     destruct (gen_next w paths ignore_logs num_procs fuel _)
       as [[[? ?] ?]|];
     simpl in *; try done; injection IH as -> Hrest ->;
     by rewrite !map_app, Hevs, Hrest).
Qed.

Lemma drain_rcode fuel c :
  erase_run (drain (with_rcode rc w) paths ignore_logs num_procs fuel c)
  = erase_run (drain w paths ignore_logs num_procs fuel c).
Proof.
  revert c. induction fuel as [|fuel IH]; intros c; [done|].
  cbn [drain]. pose proof (gen_next_rcode (S fuel) c) as Hnext.
  destruct (gen_next (with_rcode rc w) paths ignore_logs num_procs (S fuel) c)
    as [[[c1 evs1] rep1]|];
    destruct (gen_next w paths ignore_logs num_procs (S fuel) c)
      as [[[c2 evs2] rep2]|]; simpl in Hnext; try done.
  injection Hnext as -> Hevs ->. destruct rep2 as [r| |e]; simpl.
  - specialize (IH c2).
    destruct (drain (with_rcode rc w) paths ignore_logs num_procs fuel c2)
      as [[[rs1 o1] evs1']|];
      destruct (drain w paths ignore_logs num_procs fuel c2)
        as [[[rs2 o2] evs2']|]; simpl in *; try done.
    injection IH as -> -> Hrest. by rewrite !map_app, Hevs, Hrest.
  - by rewrite Hevs.
  - by rewrite Hevs.
Qed.

Lemma wait_not_advanced st f r :
  EvWait f r ∉ (advance w ignore_logs st).2.
Proof.
  pose proof (advance_spec w ignore_logs st) as Hadv.
  destruct (advance w ignore_logs st) as [? evs].
  inversion Hadv; subst; simpl; intros Hin;
    rewrite ?elem_of_app, ?list_elem_of_fmap in Hin;
    set_solver.
Qed.

(** C8: a source is retired only when its decoder is at the end of its
    stream, the exit status that [p.wait()] returns being dropped; and
    iterating over [readtb] with other exit statuses of the dump processes
    hands over the same records, ends the same way, with the same error if
    any, and does the same things. *)
Theorem readtb_ignores_exit_status fuel :
  erase_run (drain (with_rcode rc w) paths ignore_logs num_procs fuel
               (readtb paths ignore_logs num_procs).1)
  = erase_run (drain w paths ignore_logs num_procs fuel
                 (readtb paths ignore_logs num_procs).1)
  ∧ ∀ c c' evs f r,
      step w paths ignore_logs num_procs c = (c', evs) →
      EvWait f r ∈ evs →
      ∃ rest p,
        c.1 = PFor (f :: rest)
        ∧ procs c.2 !! f = Some p
        ∧ tb_fps c.2 !! f = Some []
        ∧ r = dump_rcode w p.
Proof.
  split; [apply drain_rcode|].
  intros [ctl st] c' evs f r Hstep Hin. unfold step in Hstep.
  destruct ctl as [|[|k]| |[|f' rest]|e];
    try (injection Hstep as <- <-; by apply elem_of_nil in Hin).
  - pose proof (wait_not_advanced st f r) as Hno.
    destruct (advance w ignore_logs st) as [[|] ?];
      injection Hstep as <- <-; done.
  - destruct (decide (read_fds st = ∅));
      injection Hstep as <- <-; by apply elem_of_nil in Hin.
  - destruct (procs st !! f') as [p|] eqn:Hp;
      [|injection Hstep as <- <-; by apply elem_of_nil in Hin].
    destruct (tb_fps st !! f') as [[|r' recs]|] eqn:Hf;
      [| |injection Hstep as <- <-; by apply elem_of_nil in Hin].
    + assert (f = f' ∧ r = dump_rcode w p) as [-> ->]; [|by exists rest, p].
      pose proof (wait_not_advanced (retire f' st) f r) as Hno.
      destruct (decide (f' ∈ read_fds st)).
      * destruct (advance w ignore_logs (retire f' st)) as [[|] ?];
          injection Hstep as <- <-; apply elem_of_cons in Hin as [[= -> ->]|Hin];
          done.
      * injection Hstep as <- <-. by apply list_elem_of_singleton in Hin as [= -> ->].
    + injection Hstep as <- <-. by apply list_elem_of_singleton in Hin.
Qed.

End ExitStatus.

(** * The sample cluster at work *)

Lemma all_ready_valid ld : valid_select (Sample.world Sample.all_ready ld).
Proof. intros n l Hne Hnd. by split_and!. Qed.


Lemma first_ready_valid ld : valid_select (Sample.world Sample.first_ready ld).
Proof.
  intros n l Hne Hnd. destruct l as [|f l]; [done|].
  split_and!; [done|apply NoDup_singleton|]. intros x Hx.
  apply list_elem_of_singleton in Hx as ->. left.
Qed.

(** Reading both directories with two processes: the six records of the
    three data files arrive, in some order. *)
Lemma readtb_delivers_every_record_sample :
  enumerate (Sample.world Sample.all_ready Sample.failing_loader) true
    ["/d"; "/e"] = ret ["/d/part-0"; "/e/part-0"; "/e/part-1"]
  ∧ ∃ fuel rs evs,
      drain (Sample.world Sample.all_ready Sample.failing_loader)
        (PathList ["/d"; "/e"]) true 2 fuel
        (readtb (PathList ["/d"; "/e"]) true 2).1 = Some (rs, None, evs)
      ∧ (spawns evs).*2 = ["/d/part-0"; "/e/part-0"; "/e/part-1"]
      ∧ length rs = 6
      ∧ rs ≡ₚ [1; 2; 3; 10; 20; 7].
Proof.
  split; [reflexivity|].
  destruct (readtb_delivers_every_record
              (Sample.world Sample.all_ready Sample.failing_loader)
              (PathList ["/d"; "/e"]) true 2
              ["/d/part-0"; "/e/part-0"; "/e/part-1"]
              eq_refl (all_ready_valid _))
    as (fuel & rs & evs & Hdrain & _ & Hall & _ & _ & _ & Hlen & Hperm).
  rewrite (Hall (Nat.lt_0_succ 1)) in Hlen, Hperm.
  exists fuel, rs, evs. split; [exact (Hdrain fuel (le_n fuel))|].
  split; [exact (Hall (Nat.lt_0_succ 1))|]. split; [exact Hlen|exact Hperm].
Defined.

(** After nine rounds of that run, two sources are open and one path is
    still to be opened. *)
Lemma readtb_pool_bounded_sample :
  let '(c, tr) :=
    steps (Sample.world Sample.first_ready Sample.failing_loader)
      (PathList ["/d"; "/e"]) true 2 9 (PStart, empty_state) in
  length (spawns tr) = 2 ∧ size (read_fds c.2) = 2.
Proof.
  pose proof (readtb_pool_bounded
                (Sample.world Sample.first_ready Sample.failing_loader)
                (PathList ["/d"; "/e"]) true 2 9) as H.
  destruct (steps _ _ _ _ _ _) as [c tr] eqn:Hsteps.
  destruct H as (_ & _ & _ & _ & H).
  vm_compute in Hsteps. injection Hsteps as <- <-.
  split; [reflexivity|].
  apply (H ["/d/part-0"; "/e/part-0"; "/e/part-1"] eq_refl eq_refl).
  vm_compute. lia.
Defined.

(** C3 as stated fails: roots [/d] and [/zz], the second of which does not
    exist, read with one process.  The source for [/d/part-0] is created
    and its three records are handed over before [/zz] is listed and the
    error is raised. *)
Lemma readtb_listing_failure_not_upfront :
  drain (Sample.world Sample.all_ready Sample.failing_loader)
    (PathList ["/d"; "/zz"]) true 1 20
    (readtb (PathList ["/d"; "/zz"]) true 1).1
  = Some ([1; 2; 3], Some (not_found "/zz"),
          [EvLs "/d"; EvSpawn 0 "/d/part-0"; EvYield 0 1; EvYield 0 2;
           EvYield 0 3; EvWait 0 0%Z; EvLs "/zz"])
  ∧ ¬ fails_upfront (Sample.world Sample.all_ready Sample.failing_loader)
        (PathList ["/d"; "/zz"]) true 1.
Proof.
  assert (drain (Sample.world Sample.all_ready Sample.failing_loader)
            (PathList ["/d"; "/zz"]) true 1 20
            (readtb (PathList ["/d"; "/zz"]) true 1).1
          = Some ([1; 2; 3], Some (not_found "/zz"),
                  [EvLs "/d"; EvSpawn 0 "/d/part-0"; EvYield 0 1; EvYield 0 2;
                   EvYield 0 3; EvWait 0 0%Z; EvLs "/zz"])) as Hrun
    by (vm_compute; reflexivity).
  split; [exact Hrun|]. intros Hup.
  assert ("/zz" ∈ norm_paths (PathList ["/d"; "/zz"])) as Hin.
  { apply list_elem_of_In. simpl. tauto. }
  assert (∃ e, ls (Sample.world Sample.all_ready Sample.failing_loader) "/zz"
               = raise e) as Hfail by (by eexists).
  destruct (Hup "/zz" Hin Hfail _ _ _ _ Hrun) as (_ & _ & Hrs). done.
Qed.

(** The failing root first: the error comes before anything else.  The
    failing root second, with one process: the source of [/d/part-0] is
    created before [/zz] is listed, and the error is raised all the same. *)
Lemma readtb_listing_failure_upfront_sample :
  drain (Sample.world Sample.all_ready Sample.failing_loader)
    (PathList ["/zz"; "/d"]) true 10 2
    (readtb (PathList ["/zz"; "/d"]) true 10).1
  = Some ([], Some (not_found "/zz"), [EvLs "/zz"])
  ∧ ∃ fuel0 rs evs1,
      (∀ fuel, fuel0 ≤ fuel →
         drain (Sample.world Sample.all_ready Sample.failing_loader)
           (PathList ["/d"; "/zz"]) true 1 fuel
           (readtb (PathList ["/d"; "/zz"]) true 1).1
         = Some (rs, Some (not_found "/zz"), evs1 ++ [EvLs "/zz"]))
      ∧ (spawns evs1).*2 = ["/d/part-0"].
Proof.
  split.
  - apply (proj1 (readtb_listing_failure_upfront
                    (Sample.world Sample.all_ready Sample.failing_loader)
                    (PathList ["/zz"; "/d"]) true 9 [] "/zz" ["/d"]
                    (IOError "Ran[hadoop fs -ls /zz]: ls: Cannot access: No such file or directory.")
                    eq_refl eq_refl) (Forall_nil_2 _) 0).
  - destruct (proj2 (readtb_listing_failure_upfront
                       (Sample.world Sample.all_ready Sample.failing_loader)
                       (PathList ["/d"; "/zz"]) true 0 ["/d"] "/zz" []
                       (IOError "Ran[hadoop fs -ls /zz]: ls: Cannot access: No such file or directory.")
                       eq_refl eq_refl) (all_ready_valid _) ["/d/part-0"] eq_refl)
      as (fuel0 & rs & evs1 & Hdrain & _ & Hsp & _).
    by exists fuel0, rs, evs1.
Defined.

(** The first request on a root that does not exist. *)
Lemma readtb_is_lazy_sample :
  readtb (record:=nat) (PathStr "/zz") true 10 = ((PStart, empty_state), [])
  ∧ ∃ st,
      gen_next (Sample.world Sample.all_ready Sample.failing_loader)
        (PathStr "/zz") true 10 2 (readtb (PathStr "/zz") true 10).1
      = Some ((PDone (Some (not_found "/zz")), st), [EvLs "/zz"],
              Raise (not_found "/zz")).
Proof.
  apply (readtb_is_lazy
           (Sample.world Sample.all_ready Sample.failing_loader)
           (PathStr "/zz") true 9 "/zz" []
           (IOError "Ran[hadoop fs -ls /zz]: ls: Cannot access: No such file or directory.")
           0 eq_refl eq_refl).
Defined.



(** Three records for a loader that has exited with status 1 when the
    second is to be written: the first is written, the second poll finds
    the loader gone, and [writetb] raises. *)
Lemma writetb_loader_quit_sample :
  writetb (Sample.world Sample.all_ready Sample.dying_loader) "/out" [1; 2; 3]
  = (raise (IOError "Child process quit while we were sending it data. STDOUT[out] STDERR[err]"),
     [WSpawn "hadoop jar hs.jar loadtb /out"; WPoll None; WWrite 1;
      WPoll (Some 1%Z); WCommunicate; WClose]).
Proof.
  apply (proj2 (writetb_loader_quit
                  (Sample.world Sample.all_ready Sample.dying_loader)
                  "/out" [1; 2; 3]) 1 eq_refl).
  simpl. lia.
Defined.

(** C4 fails on the code: a loader that reads all three records and then
    exits with status 1.  [writetb] flushes, closes the pipe, waits for the
    loader, and returns normally: the exit status that [p.wait()] returns
    is dropped. *)
Theorem writetb_drops_exit_status :
  l_rcode Sample.failing_loader = 1%Z
  ∧ writetb (Sample.world Sample.all_ready Sample.failing_loader) "/out"
      [1; 2; 3]
    = (ret tt,
       [WSpawn "hadoop jar hs.jar loadtb /out"; WPoll None; WWrite 1;
        WPoll None; WWrite 2; WPoll None; WWrite 3; WFlush; WClose;
        WWait 1%Z]).
Proof. split; reflexivity. Qed.

(** * The rest of the module: properties *)

(** ** Splitting strings *)

Lemma chars_app (a b : string) :
  String.list_ascii_of_string (a +:+ b)
  = String.list_ascii_of_string a ++ String.list_ascii_of_string b.
Proof. induction a as [|x a IH]; [done|]. simpl. by rewrite IH. Qed.

Lemma of_chars_app (l1 l2 : list ascii) :
  String.string_of_list_ascii (l1 ++ l2)
  = String.string_of_list_ascii l1 +:+ String.string_of_list_ascii l2.
Proof. induction l1 as [|x l1 IH]; [done|]. simpl. by rewrite IH. Qed.

Lemma lacks_app c (a b : string) : lacks c (a +:+ b) ↔ lacks c a ∧ lacks c b.
Proof. unfold lacks. rewrite chars_app, not_elem_of_app. done. Qed.

Lemma lacks_cons c x (s : string) : lacks c (String x s) ↔ x ≠ c ∧ lacks c s.
Proof. unfold lacks. simpl. rewrite not_elem_of_cons. naive_solver. Qed.

Lemma split_on_nonempty c s : split_on c s ≠ [].
Proof.
  destruct s as [|x s]; [done|]. simpl.
  destruct (Ascii.eqb x c); [done|]. by destruct (split_on c s).
Qed.

Lemma split_on_app c (a b : string) :
  split_on c (a +:+ String c b) = split_on c a ++ split_on c b.
Proof.
  induction a as [|x a IH]; simpl.
  - by rewrite Ascii.eqb_refl.
  - rewrite IH. destruct (Ascii.eqb x c); [done|].
    pose proof (split_on_nonempty c a). by destruct (split_on c a).
Qed.

Lemma split_on_lacks c s : lacks c s → split_on c s = [s].
Proof.
  induction s as [|x s IH]; [done|]. intros [Hx Hs]%lacks_cons. simpl.
  destruct (Ascii.eqb_spec x c) as [->|_]; [done|]. by rewrite IH.
Qed.

Lemma split_on_parts c s : Forall (lacks c) (split_on c s).
Proof.
  induction s as [|x s IH]; simpl.
  - constructor; [|done]. unfold lacks. simpl. apply not_elem_of_nil.
  - destruct (Ascii.eqb_spec x c) as [->|Hne].
    + constructor; [|done]. unfold lacks. simpl. apply not_elem_of_nil.
    + pose proof (split_on_nonempty c s).
      destruct (split_on c s) as [|h t]; [done|].
      apply Forall_cons in IH as [Hh Ht]. constructor; [|done].
      by apply lacks_cons.
Qed.

Lemma last_str_app (l1 l2 : list string) :
  l2 ≠ [] → last_str (l1 ++ l2) = last_str l2.
Proof.
  intros Hne. unfold last_str. induction l1 as [|x l1 IH]; [done|].
  simpl. rewrite IH. by destruct (l1 ++ l2) eqn:Happ;
    [apply app_eq_nil in Happ as [_ ?]|].
Qed.

(** The last field of a line is that of what follows one of its spaces. *)
Lemma last_field_app (a b : string) : last_field (a +:+ " " +:+ b) = last_field b.
Proof.
  unfold last_field. change (" " +:+ b) with (String " "%char b).
  rewrite split_on_app. apply last_str_app, split_on_nonempty.
Qed.

Lemma last_field_lacks (b : string) : lacks " "%char b → last_field b = b.
Proof. intros Hb. unfold last_field. by rewrite split_on_lacks. Qed.

Lemma strip_prefix_Some (p l y : list ascii) :
  strip_prefix p l = Some y → l = p ++ y.
Proof.
  revert l. induction p as [|a p IH]; intros l; simpl.
  - by intros [= ->].
  - destruct l as [|b l]; [done|].
    destruct (Ascii.eqb_spec a b) as [->|_]; [|done].
    intros H. by rewrite (IH _ H).
Qed.

Lemma strip_prefix_app (p y : list ascii) : strip_prefix p (p ++ y) = Some y.
Proof. induction p as [|a p IH]; [done|]. simpl. by rewrite Ascii.eqb_refl. Qed.

Lemma rev_chars_app (a b : string) : rev_chars (a +:+ b) = rev_chars b ++ rev_chars a.
Proof. unfold rev_chars. by rewrite chars_app, rev_app_distr. Qed.

Lemma string_of_rev_chars (s : string) (y : list ascii) (p : string) :
  rev_chars s = rev_chars p ++ y →
  s = String.string_of_list_ascii (rev y) +:+ p.
Proof.
  unfold rev_chars. intros H.
  apply (f_equal (@rev ascii)) in H.
  rewrite rev_app_distr, !rev_involutive in H.
  apply (f_equal String.string_of_list_ascii) in H.
  by rewrite String.string_of_list_ascii_of_string, of_chars_app,
    String.string_of_list_ascii_of_string in H.
Qed.

(** A line that the header pattern matches has ["items"] for last field. *)
Lemma found_line_last_field (x : string) :
  found_line x = true → last_field x = "items".
Proof.
  unfold found_line.
  destruct (strip_prefix (rev_chars " items") (rev_chars x)) as [y|] eqn:Hy;
    [|done].
  intros _. apply strip_prefix_Some, string_of_rev_chars in Hy. rewrite Hy.
  change (" items") with (" " +:+ "items"). by rewrite last_field_app.
Qed.

Lemma drop_digits_app (l r : list ascii) :
  Forall (λ a, is_digit a = true) l →
  match r with a :: _ => is_digit a = false | [] => True end →
  drop_digits (l ++ r) = (length l, r).
Proof.
  intros Hl Hr. induction Hl as [|a l Ha _ IH]; simpl.
  - destruct r as [|a r]; [done|]. simpl. by rewrite Hr.
  - by rewrite Ha, IH.
Qed.

(** The header of a listing is matched by the pattern. *)
Lemma found_line_header (n : string) :
  n ≠ EmptyString → all_digits n →
  found_line ("Found " +:+ n +:+ " items") = true.
Proof.
  intros Hne Hn. unfold found_line.
  rewrite !rev_chars_app, <- app_assoc, strip_prefix_app.
  rewrite drop_digits_app; [| |done].
  - destruct n as [|a n]; [done|]. unfold rev_chars at 1. simpl.
    rewrite length_app. simpl. rewrite Nat.add_1_r. done.
  - unfold rev_chars. by apply Forall_rev.
Qed.

(** ** [ls] *)

Section Listing.

Context {record : Type}.
Implicit Types (w : World record) (entries : list (string * string)).

Lemma ls_of_stdout w path :
  rcode (run_cmd w ("hadoop fs -ls " +:+ path)) = 0%Z →
  ls w path
  = ret (map last_field
           (List.filter ls_keeps
              (split_on "010"%char (p_stdout (run_cmd w ("hadoop fs -ls " +:+ path)))))).
Proof.
  intros Hrc. unfold ls. by rewrite checked_zero.
Qed.

Lemma append_assoc_str (a b c : string) : (a +:+ b) +:+ c = a +:+ b +:+ c.
Proof.
  induction a as [|x a IH]; [done|].
  change (String x ((a +:+ b) +:+ c) = String x (a +:+ b +:+ c)). by f_equal.
Qed.

Lemma lacks_newline_line (m p : string) :
  lacks "010"%char m → lacks "010"%char p →
  lacks "010"%char (m +:+ " " +:+ p).
Proof.
  intros Hm Hp. apply lacks_app. split; [done|].
  change (" " +:+ p) with (String " "%char p). by apply lacks_cons.
Qed.

Lemma listing_lines_split entries :
  Forall (λ e, lacks "010"%char e.1 ∧ lacks "010"%char e.2) entries →
  split_on "010"%char (listing_lines entries)
  = map (λ e, e.1 +:+ " " +:+ e.2) entries ++ [EmptyString].
Proof.
  induction 1 as [|[m p] entries [Hm Hp] _ IH]; [done|].
  cbn [listing_lines map fst snd].
  replace (m +:+ " " +:+ p +:+ newline +:+ listing_lines entries)
    with ((m +:+ " " +:+ p) +:+ String "010"%char (listing_lines entries))
    by (by rewrite !append_assoc_str).
  rewrite split_on_app, IH, split_on_lacks by (by apply lacks_newline_line).
  done.
Qed.

Lemma ls_keeps_line (m p : string) :
  last_field p ≠ "items" → ls_keeps (m +:+ " " +:+ p) = true.
Proof.
  intros Hp. unfold ls_keeps. apply andb_true_intro. split.
  - by destruct m.
  - apply negb_true_iff, not_true_is_false. intros Hfound.
    apply found_line_last_field in Hfound. by rewrite last_field_app in Hfound.
Qed.

Lemma ls_lines_fields entries :
  Forall (λ e, lacks "010"%char e.1 ∧ lacks "010"%char e.2
               ∧ last_field e.2 ≠ "items") entries →
  map last_field (List.filter ls_keeps (split_on "010"%char (listing_lines entries)))
  = map (λ e, last_field e.2) entries.
Proof.
  intros Hok. rewrite listing_lines_split
    by (eapply Forall_impl; [exact Hok|]; naive_solver).
  rewrite List.filter_app. cbn [List.filter ls_keeps String.eqb negb andb].
  rewrite app_nil_r.
  induction Hok as [|[m p] entries (Hm & Hp & Hf) _ IH]; [done|].
  cbn [map List.filter fst snd]. rewrite ls_keeps_line by done.
  cbn [map]. by rewrite last_field_app, IH.
Qed.

Lemma all_digits_lacks_newline (n : string) : all_digits n → lacks "010"%char n.
Proof.
  unfold all_digits, lacks. intros Hn Hin.
  rewrite Forall_forall in Hn. by specialize (Hn _ Hin).
Qed.

(** What [ls] makes of a listing: the last field of every line. *)
Lemma ls_fields w path count entries :
  rcode (run_cmd w ("hadoop fs -ls " +:+ path)) = 0%Z →
  p_stdout (run_cmd w ("hadoop fs -ls " +:+ path)) = listing_text count entries →
  (∀ n, count = Some n → n ≠ EmptyString ∧ all_digits n) →
  Forall (λ e, lacks "010"%char e.1 ∧ lacks "010"%char e.2
               ∧ last_field e.2 ≠ "items") entries →
  ls w path = ret (map (λ e, last_field e.2) entries).
Proof.
  intros Hrc Hout Hcount Hok. rewrite ls_of_stdout, Hout by done.
  destruct count as [n|]; cbn [listing_text]; [|by rewrite ls_lines_fields].
  destruct (Hcount n eq_refl) as [Hne Hn].
  replace ("Found " +:+ n +:+ " items" +:+ newline +:+ listing_lines entries)
    with (("Found " +:+ n +:+ " items")
          +:+ String "010"%char (listing_lines entries))
    by (by rewrite !append_assoc_str).
  rewrite split_on_app, split_on_lacks.
  - cbn [app List.filter]. unfold ls_keeps at 1.
    rewrite found_line_header by done. rewrite andb_false_r.
    by rewrite ls_lines_fields.
  - apply (lacks_app _ "Found "). split; [lacks_literal|].
    apply lacks_app. split; [by apply all_digits_lacks_newline|lacks_literal].
Qed.

End Listing.

(** The last field of a path without a space is the path. *)
Lemma last_field_paths (entries : list (string * string)) :
  Forall (λ e, lacks " "%char e.2) entries →
  map (λ e, last_field e.2) entries = entries.*2.
Proof.
  induction 1 as [|[m p] entries Hsp _ IH]; [done|].
  cbn [map fmap list_fmap snd] in *. rewrite last_field_lacks by done.
  f_equal. exact IH.
Qed.

(** An absolute path without a space is not taken for the end of a header. *)
Lemma last_field_absolute (p : string) :
  lacks " "%char p → startswith "/" p = true → last_field p ≠ "items".
Proof. intros Hsp Habs. rewrite last_field_lacks by done. by intros ->. Qed.

(** X1: a listing as [hadoop fs -ls] prints it, with or without its
    header, of paths that are absolute and hold no space, is read back by
    [ls] as exactly those paths, in order. *)
Theorem ls_round_trip {record : Type} (w : World record) path count entries :
  rcode (run_cmd w ("hadoop fs -ls " +:+ path)) = 0%Z →
  p_stdout (run_cmd w ("hadoop fs -ls " +:+ path)) = listing_text count entries →
  (∀ n, count = Some n → n ≠ EmptyString ∧ all_digits n) →
  Forall (λ e, lacks "010"%char e.1 ∧ lacks "010"%char e.2
               ∧ lacks " "%char e.2 ∧ startswith "/" e.2 = true) entries →
  ls w path = ret entries.*2.
Proof.
  intros Hrc Hout Hcount Hok.
  rewrite (ls_fields w path count entries Hrc Hout Hcount).
  - f_equal. apply last_field_paths.
    eapply Forall_impl; [exact Hok|]. naive_solver.
  - eapply Forall_impl; [exact Hok|]. intros [m p] (Hm & Hp & Hsp & Habs).
    split_and!; [done..|]. by apply last_field_absolute.
Qed.

(** A line that ends as a header does is matched by the pattern. *)
Lemma found_line_suffix (pre n : string) :
  n ≠ EmptyString → all_digits n →
  found_line (pre +:+ "Found " +:+ n +:+ " items") = true.
Proof.
  intros Hne Hn. unfold found_line.
  rewrite !rev_chars_app, <- !app_assoc, strip_prefix_app.
  rewrite drop_digits_app; [| |done].
  - destruct n as [|a n]; [done|]. unfold rev_chars at 1.
    cbn [String.list_ascii_of_string rev].
    rewrite length_app. cbn [length]. rewrite Nat.add_1_r.
    by rewrite strip_prefix_app.
  - unfold rev_chars. by apply Forall_rev.
Qed.

Lemma ls_keeps_entry (m p : string) :
  ls_keeps (m +:+ " " +:+ p) = negb (found_line (m +:+ " " +:+ p)).
Proof. unfold ls_keeps. by destruct m. Qed.

Lemma ls_lines_kept (entries : list (string * string)) :
  Forall (λ e, lacks "010"%char e.1 ∧ lacks "010"%char e.2) entries →
  map last_field (List.filter ls_keeps (split_on "010"%char (listing_lines entries)))
  = map (λ e, last_field e.2)
      (List.filter (λ e, negb (found_line (e.1 +:+ " " +:+ e.2))) entries).
Proof.
  intros Hok. rewrite listing_lines_split by done.
  rewrite List.filter_app. cbn [List.filter ls_keeps String.eqb negb andb].
  rewrite app_nil_r.
  induction Hok as [|[m p] entries _ _ IH]; [done|].
  cbn [map List.filter fst snd]. rewrite ls_keeps_entry.
  destruct (negb (found_line (m +:+ " " +:+ p))); [|exact IH].
  cbn [map snd]. by rewrite last_field_app, IH.
Qed.

(** What [ls] makes of any listing: the last field of every line that does
    not end as a header does. *)
Lemma ls_listing {record : Type} (w : World record) path count entries :
  rcode (run_cmd w ("hadoop fs -ls " +:+ path)) = 0%Z →
  p_stdout (run_cmd w ("hadoop fs -ls " +:+ path)) = listing_text count entries →
  (∀ n, count = Some n → n ≠ EmptyString ∧ all_digits n) →
  Forall (λ e, lacks "010"%char e.1 ∧ lacks "010"%char e.2) entries →
  ls w path
  = ret (map (λ e, last_field e.2)
           (List.filter (λ e, negb (found_line (e.1 +:+ " " +:+ e.2))) entries)).
Proof.
  intros Hrc Hout Hcount Hok. rewrite ls_of_stdout, Hout by done.
  destruct count as [n|]; cbn [listing_text]; [|by rewrite ls_lines_kept].
  destruct (Hcount n eq_refl) as [Hne Hn].
  replace ("Found " +:+ n +:+ " items" +:+ newline +:+ listing_lines entries)
    with (("Found " +:+ n +:+ " items")
          +:+ String "010"%char (listing_lines entries))
    by (by rewrite !append_assoc_str).
  rewrite split_on_app, split_on_lacks.
  - cbn [app List.filter]. unfold ls_keeps at 1.
    rewrite found_line_header by done. rewrite andb_false_r.
    by rewrite ls_lines_kept.
  - apply (lacks_app _ "Found "). split; [lacks_literal|].
    apply lacks_app. split; [by apply all_digits_lacks_newline|lacks_literal].
Qed.

(** X2: of a listing as [hadoop fs -ls] prints it, whatever the paths
    hold but a newline, [ls] returns the last space-separated field of
    each line that does not end as a header does (Found, digits, items),
    in order.  So a path that holds a space is listed as what follows its
    last space, and an entry whose path ends as a header does is dropped. *)
Theorem ls_cuts_at_last_space {record : Type} (w : World record) path count
    entries :
  rcode (run_cmd w ("hadoop fs -ls " +:+ path)) = 0%Z →
  p_stdout (run_cmd w ("hadoop fs -ls " +:+ path)) = listing_text count entries →
  (∀ n, count = Some n → n ≠ EmptyString ∧ all_digits n) →
  Forall (λ e, lacks "010"%char e.1 ∧ lacks "010"%char e.2) entries →
  ls w path
  = ret (map (λ e, last_field e.2)
           (List.filter (λ e, negb (found_line (e.1 +:+ " " +:+ e.2))) entries))
  ∧ (∀ a b, lacks " "%char b → last_field (a +:+ " " +:+ b) = b)
  ∧ (∀ m pre n, n ≠ EmptyString → all_digits n →
       found_line (m +:+ " " +:+ pre +:+ "Found " +:+ n +:+ " items") = true).
Proof.
  intros Hrc Hout Hcount Hok. split_and!.
  - by apply (ls_listing w path count).
  - intros a b Hb. by rewrite last_field_app, last_field_lacks.
  - intros m pre n Hne Hn.
    rewrite <- (append_assoc_str m " " (pre +:+ _)), <- append_assoc_str.
    by apply found_line_suffix.
Qed.

(** ** [_cleaned_hadoop_stderr] *)

Lemma cleaned_ok (lines : list string) :
  Forall has_level lines →
  _cleaned_hadoop_stderr lines = (List.filter kept_line lines, None).
Proof.
  induction 1 as [|line lines Hline _ IH]; [done|].
  cbn [_cleaned_hadoop_stderr List.filter]. unfold kept_line.
  destruct (nth_error (py_split line) 2) as [part|] eqn:Hpart.
  - rewrite IH. by destruct (is_log_level part).
  - apply nth_error_None in Hpart. unfold has_level in Hline. lia.
Qed.

Lemma cleaned_app (pre rest : list string) :
  Forall has_level pre →
  _cleaned_hadoop_stderr (pre ++ rest)
  = (List.filter kept_line pre ++ (_cleaned_hadoop_stderr rest).1,
     (_cleaned_hadoop_stderr rest).2).
Proof.
  induction 1 as [|line lines Hline _ IH].
  { cbn [app List.filter]. by destruct (_cleaned_hadoop_stderr rest). }
  cbn [_cleaned_hadoop_stderr List.filter app]. unfold kept_line.
  destruct (nth_error (py_split line) 2) as [part|] eqn:Hpart.
  - rewrite IH. by destruct (is_log_level part).
  - apply nth_error_None in Hpart. unfold has_level in Hline. lia.
Qed.

Lemma cleaned_out_kept (lines : list string) :
  Forall (λ line, has_level line ∧ kept_line line = true)
    (_cleaned_hadoop_stderr lines).1.
Proof.
  induction lines as [|line lines IH]; [constructor|].
  cbn [_cleaned_hadoop_stderr].
  destruct (nth_error (py_split line) 2) as [part|] eqn:Hpart; [|constructor].
  destruct (_cleaned_hadoop_stderr lines) as [out e].
  destruct (is_log_level part) eqn:Hlevel; [done|].
  constructor; [|done]. split.
  - unfold has_level. assert (2 < length (py_split line)); [|lia].
    apply nth_error_Some. by rewrite Hpart.
  - unfold kept_line. by rewrite Hpart, Hlevel.
Qed.

(** X3: when every line has a third field, [_cleaned_hadoop_stderr] yields,
    in order, exactly the lines whose third field is neither [INFO] nor
    [WARN], and ends normally. *)
Theorem cleaned_stderr_filters (lines : list string) :
  Forall has_level lines →
  _cleaned_hadoop_stderr lines = (List.filter kept_line lines, None)
  ∧ ∀ line, line ∈ (_cleaned_hadoop_stderr lines).1 ↔
      line ∈ lines ∧ ∃ part, nth_error (py_split line) 2 = Some part
                             ∧ part ≠ "INFO" ∧ part ≠ "WARN".
Proof.
  intros Hlines. rewrite cleaned_ok by done. split; [done|].
  intros line. cbn [fst]. rewrite list_elem_of_In, List.filter_In, <- list_elem_of_In.
  unfold kept_line, is_log_level. split.
  - intros [Hin Hkept]. split; [done|].
    destruct (nth_error (py_split line) 2) as [part|]; [|done].
    exists part. apply negb_true_iff, orb_false_iff in Hkept as [H1 H2].
    apply String.eqb_neq in H1, H2. done.
  - intros [Hin (part & -> & H1 & H2)]. split; [done|].
    apply negb_true_iff, orb_false_iff. by rewrite !String.eqb_neq.
Qed.

(** X4: at the first line with fewer than three fields (an empty line, a
    line of a Java stack trace) [_cleaned_hadoop_stderr] raises
    [IndexError]: it has yielded the kept lines before that line, and
    yields none of the lines after it. *)
Theorem cleaned_stderr_short_line (pre post : list string) (line : string) :
  Forall has_level pre →
  length (py_split line) < 3 →
  _cleaned_hadoop_stderr (pre ++ line :: post)
  = (List.filter kept_line pre, Some IndexError).
Proof.
  intros Hpre Hline. rewrite cleaned_app by done.
  cbn [_cleaned_hadoop_stderr].
  destruct (nth_error (py_split line) 2) as [part|] eqn:Hpart.
  - assert (2 < length (py_split line)); [|lia].
    apply nth_error_Some. by rewrite Hpart.
  - cbn [fst snd]. by rewrite app_nil_r.
Qed.

(** X5: cleaning what [_cleaned_hadoop_stderr] yielded changes nothing and
    ends normally, also when the first pass ended in an error. *)
Theorem cleaned_stderr_idempotent (lines : list string) :
  _cleaned_hadoop_stderr (_cleaned_hadoop_stderr lines).1
  = ((_cleaned_hadoop_stderr lines).1, None).
Proof.
  pose proof (cleaned_out_kept lines) as Hout.
  rewrite cleaned_ok by (eapply Forall_impl; [exact Hout|]; naive_solver).
  f_equal. induction Hout as [|line out [_ Hkept] _ IH]; [done|].
  cbn [List.filter]. by rewrite Hkept, IH.
Qed.

(** ** [writetb]: what reaches the pipe *)

Section WriterPipe.
Context {record : Type}.

Lemma write_loop_pipe (l : loader) n (kvs : list record) :
  wcloses (write_loop l n kvs).2 = 0
  ∧ wwrites (write_loop l n kvs).2 `prefix_of` kvs
  ∧ ((write_loop l n kvs).1 = ret tt → wwrites (write_loop l n kvs).2 = kvs)
  ∧ ∀ e, (write_loop l n kvs).1 = raise e →
      e = IOError (quit_msg l)
      ∧ length (wwrites (write_loop l n kvs).2) < length kvs.
Proof.
  revert n. induction kvs as [|kv kvs IH]; intros n; [by split_and!|].
  cbn [write_loop]. destruct (poll l n) as [rc|].
  - cbn. split_and!; [done|apply prefix_nil|done|].
    intros e [= <-]. split; [done|lia].
  - destruct (IH (S n)) as (Hc & Hp & Hret & Hraise).
    destruct (write_loop l (S n) kvs) as [r evs]. cbn [fst snd] in *.
    split_and!; [done|by apply prefix_cons|..].
    + intros Hr. cbn. f_equal. by apply Hret.
    + intros e Hr. destruct (Hraise e Hr) as [-> Hlen]. split; [done|].
      unfold wwrites in *. cbn [omap list_omap length]. lia.
Qed.

Lemma wwrites_app (a b : list (wevent record)) :
  wwrites (a ++ b) = wwrites a ++ wwrites b.
Proof. apply omap_app. Qed.

Lemma wcloses_app (a b : list (wevent record)) :
  wcloses (a ++ b) = wcloses a + wcloses b.
Proof. unfold wcloses. by rewrite omap_app, length_app. Qed.

(** X6: whatever the loader does, [writetb] closes the pipe exactly once,
    and what it wrote into the pipe is a prefix of the records given: all
    of them exactly when it returns, and fewer when it raises, the error
    then being the one that carries the loader's output. *)
Theorem writetb_pipe (w : World record) path (kvs : list record) :
  let p := load_proc w ("hadoop jar " +:+ hstreaming w +:+ " loadtb " +:+ path) in
  let r := (writetb w path kvs).1 in
  let evs := (writetb w path kvs).2 in
  wcloses evs = 1
  ∧ wwrites evs `prefix_of` kvs
  ∧ (r = ret tt ↔ wwrites evs = kvs)
  ∧ ∀ e, r = raise e → e = IOError (quit_msg p).
Proof.
  intros p r evs. subst r evs. unfold writetb, _hadoop_fs_command. fold p.
  destruct (write_loop_pipe p 0 kvs) as (Hc & Hp & Hret & Hraise).
  destruct (write_loop p 0 kvs) as [[[]|e] evs]; cbn [fst snd] in *.
  - change (WSpawn ?c :: ?l) with ([WSpawn (record:=record) c] ++ l).
    rewrite !wcloses_app, !wwrites_app, Hc. cbn.
    rewrite app_nil_r. split_and!; [done|done|by auto|done].
  - change (WSpawn ?c :: ?l) with ([WSpawn (record:=record) c] ++ l).
    rewrite !wcloses_app, !wwrites_app, Hc. cbn.
    rewrite app_nil_r. destruct (Hraise e eq_refl) as [-> Hlen].
    split_and!; [done|done| |by intros ? [= <-]].
    split; [done|]. intros Heq. rewrite Heq in Hlen. lia.
Qed.

End WriterPipe.

(** ** [readtb]: retirement, and what one request does *)

Section Retirement.

Context {record : Type}.
Variable w : World record.
Variable paths : paths_arg.
Variable ignore_logs : bool.
Variable num_procs : nat.
Implicit Types (st : state record) (tr evs : list (event record)) (f : fd).
Implicit Types (c : config record).

Lemma retired_inv_ls st tr ls :
  retired_inv st tr → retired_inv st (tr ++ map EvLs ls).
Proof. unfold retired_inv. by rewrite waits_app, waits_ls, app_nil_r. Qed.

Lemma retired_inv_open st tr p :
  (∀ f, f ∈ read_fds st → f < next_fd st) →
  retired_inv st tr →
  retired_inv (_open_tb w p st) (tr ++ [EvSpawn (next_fd st) p]).
Proof.
  intros Hlt [Hnd Hiff]. unfold retired_inv. rewrite waits_app. st_simpl.
  rewrite app_nil_r. split; [done|]. intros f. rewrite Hiff.
  split.
  - intros [Hf Hout]. split; [lia|]. set_solver by lia.
  - intros [Hf Hout]. split; [|set_solver].
    destruct (decide (f = next_fd st)) as [->|]; [set_solver|lia].
Qed.

Lemma retired_inv_retire st tr f rc :
  (∀ f, f ∈ read_fds st → f < next_fd st) →
  f ∈ read_fds st →
  retired_inv st tr →
  retired_inv (retire f st) (tr ++ [EvWait f rc]).
Proof.
  intros Hlt Hin [Hnd Hiff]. unfold retired_inv. rewrite waits_app. st_simpl.
  split.
  - apply NoDup_app. split_and!; [done| |apply NoDup_singleton].
    intros f' Hf' ->%list_elem_of_singleton. apply Hiff in Hf'. tauto.
  - intros f'. rewrite elem_of_app, list_elem_of_singleton, Hiff.
    specialize (Hlt f Hin). destruct (decide (f' = f)) as [->|Hne].
    + split; [intros _|by right]. split; [done|set_solver].
    + split.
      * intros [[? ?]|?]; [|done]. split; [done|set_solver].
      * intros [? Hout]. left. split; [done|set_solver].
Qed.

Lemma retired_inv_step c tr c' evs :
  inv w num_procs c tr → retired_inv c.2 tr →
  step w paths ignore_logs num_procs c = (c', evs) →
  retired_inv c'.2 (tr ++ evs).
Proof.
  destruct c as [ctl st]. intros [Hd _] Hr Hstep.
  pose proof (di_lt w num_procs _ _ Hd) as Hlt.
  st_simpl. unfold step in Hstep.
  destruct ctl as [|[|k]| |[|f rest]|e]; st_simpl;
    try (injection Hstep as <- <-; by rewrite app_nil_r).
  - pose proof (advance_spec w ignore_logs st) as Hadv.
    destruct (advance w ignore_logs st) as [[st'|e] evs'];
      inversion Hadv; subst; injection Hstep as <- <-.
    + rewrite app_assoc.
      apply (retired_inv_open st _ p Hlt).
      by apply retired_inv_ls.
    + by apply retired_inv_ls.
    + by apply retired_inv_ls.
  - destruct (decide (read_fds st = ∅)); injection Hstep as <- <-;
      by rewrite app_nil_r.
  - destruct (procs st !! f) as [p|] eqn:Hp;
      [|injection Hstep as <- <-; by rewrite app_nil_r].
    destruct (tb_fps st !! f) as [[|r recs]|] eqn:Hf;
      [| |injection Hstep as <- <-; by rewrite app_nil_r].
    + assert (f ∈ read_fds st) as Hin.
      { rewrite <- (di_tbs w num_procs _ _ Hd). apply elem_of_dom. eauto. }
      destruct (decide (f ∈ read_fds st)) as [_|]; [|done].
      pose proof (retired_inv_retire st tr f (dump_rcode w p) Hlt Hin Hr) as Hr1.
      assert (∀ f', f' ∈ read_fds (retire f st) → f' < next_fd (retire f st))
        as Hlt1 by (st_simpl; intros f' Hf'; apply Hlt; set_solver).
      pose proof (advance_spec w ignore_logs (retire f st)) as Hadv.
      destruct (advance w ignore_logs (retire f st)) as [[st'|e] evs'];
        inversion Hadv; subst; injection Hstep as <- <-;
        rewrite (cons_middle _ tr), !app_assoc.
      * change (next_fd st) with (next_fd (retire f st)).
        apply (retired_inv_open (retire f st) _ _ Hlt1).
        by apply retired_inv_ls.
      * by apply (retired_inv_ls (retire f st)).
      * by apply (retired_inv_ls (retire f st)).
    + injection Hstep as <- <-. unfold retired_inv in *.
      rewrite waits_app. st_simpl. by rewrite app_nil_r.
Qed.

Lemma retired_inv_steps n c tr c' evs :
  inv w num_procs c tr → retired_inv c.2 tr →
  steps w paths ignore_logs num_procs n c = (c', evs) →
  retired_inv c'.2 (tr ++ evs).
Proof.
  revert c tr c' evs. induction n as [|n IH]; intros c tr c' evs Hinv Hr Hsteps.
  { injection Hsteps as <- <-. by rewrite app_nil_r. }
  simpl in Hsteps.
  destruct (step w paths ignore_logs num_procs c) as [c1 evs1] eqn:Hstep.
  destruct (steps w paths ignore_logs num_procs n c1) as [c2 evs2] eqn:Hrest.
  injection Hsteps as <- <-. rewrite app_assoc.
  eapply IH; [| |done]; [by eapply inv_step|by eapply retired_inv_step].
Qed.

(** X7: at every point of every run of [readtb], whatever [select] returns
    and however the listings end: no pipe is given to two sources, no
    source is retired twice, the sources retired are the sources created
    that are no longer read, and each of them has handed over every record
    of its file.  When the iteration has ended normally every source
    created has been retired. *)
Theorem readtb_retires_once n :
  let c := (steps w paths ignore_logs num_procs n (PStart, empty_state)).1 in
  let tr := (steps w paths ignore_logs num_procs n (PStart, empty_state)).2 in
  NoDup (spawns tr).*1
  ∧ NoDup (waits tr)
  ∧ (∀ f, f ∈ waits tr ↔ f ∈ (spawns tr).*1 ∧ f ∉ read_fds c.2)
  ∧ (∀ f p, f ∈ waits tr → (f, p) ∈ spawns tr → yields_of f tr = stream_of w p)
  ∧ (c.1 = PDone None → waits tr ≡ₚ (spawns tr).*1).
Proof.
  intros c tr. subst c tr.
  destruct (steps w paths ignore_logs num_procs n (PStart, empty_state))
    as [c tr] eqn:Hsteps. cbn [fst snd].
  assert (retired_inv (record:=record) empty_state []) as Hr0.
  { split; [constructor|]. intros f. st_simpl.
    split; [intros Hf; by apply elem_of_nil in Hf|intros [Hf _]; lia]. }
  pose proof (inv_steps w paths ignore_logs num_procs n _ [] _ _
                (inv_init w num_procs) Hsteps) as Hinv.
  pose proof (retired_inv_steps n (PStart, empty_state) [] _ _
                (inv_init w num_procs) Hr0 Hsteps) as Hret.
  destruct Hinv as [Hd Hc]. destruct Hret as [Hnd Hiff].
  cbn [app] in *.
  pose proof (di_fds w num_procs _ _ Hd) as Hfds.
  assert (∀ f, f ∈ (spawns tr).*1 ↔ f < next_fd c.2) as Hsp.
  { intros f. rewrite Hfds, elem_of_seq. lia. }
  split_and!.
  - rewrite Hfds. apply NoDup_seq.
  - done.
  - intros f. by rewrite Hiff, Hsp.
  - intros f p Hf Hfp. apply (di_done w num_procs _ _ Hd f p Hfp).
    apply Hiff in Hf. tauto.
  - intros Hdone. destruct c as [ctl st]. cbn [fst snd] in *. subst ctl.
    cbn in Hc. apply NoDup_Permutation; [done|rewrite Hfds; apply NoDup_seq|].
    intros f. rewrite Hiff, Hsp. set_solver.
Qed.

Lemma basename_empty (x : string) :
  x = EmptyString ∨ (∃ d, x = d +:+ "/") → basename x = EmptyString.
Proof.
  intros [->|[d ->]]; [done|]. unfold basename.
  change (d +:+ "/") with (d +:+ String "/"%char EmptyString).
  by rewrite split_on_app, last_str_app.
Qed.

Lemma first_next_raises root roots e fuel :
  norm_paths paths = root :: roots →
  root_paths w ignore_logs root = raise e →
  ∃ st,
    gen_next w paths ignore_logs (S num_procs) (2 + fuel)
      (readtb paths ignore_logs (S num_procs)).1
    = Some ((PDone (Some e), st), [EvLs root], Raise e).
Proof.
  intros Hpaths Hroot. eexists.
  cbn [readtb fst gen_next plus step advance set_path_gen empty_state
       path_gen _path_gen_next pg_cur pg_roots].
  rewrite Hpaths. cbn [pg_roots_next]. rewrite Hroot. done.
Qed.

End Retirement.

(** X8: when the listing of the first root holds a path with an empty
    basename (an empty last field, or a path that ends in a slash) and
    logs are ignored, the first request raises [IndexError], from
    [os.path.basename(x)[0]], before any source is created; with
    [ignore_logs] off the same listing is taken as it is. *)
Theorem readtb_empty_basename {record : Type} (w : World record) paths
    num_procs root roots all_paths x fuel :
  norm_paths paths = root :: roots →
  ls w root = ret all_paths →
  x ∈ all_paths →
  x = EmptyString ∨ (∃ d, x = d +:+ "/") →
  (∃ st,
     gen_next w paths true (S num_procs) (2 + fuel)
       (readtb paths true (S num_procs)).1
     = Some ((PDone (Some IndexError), st), [EvLs root], Raise IndexError))
  ∧ root_paths w false root = ret all_paths.
Proof.
  intros Hpaths Hls Hin Hx. split.
  - apply (first_next_raises w paths true num_procs root roots); [done|].
    unfold root_paths. rewrite Hls.
    apply (filter_keep_empty_basename all_paths x Hin), basename_empty, Hx.
  - unfold root_paths. by rewrite Hls.
Qed.

(** X9: one request runs the body to its next [yield] and no further: when
    it gives a record, handing that record over is the last thing done and
    the only record handed over, and the body is left suspended in the
    [for] loop; when it ends the iteration, no record was handed over and
    the body has ended. *)
Theorem readtb_one_record_per_request {record : Type} (w : World record) paths
    ignore_logs num_procs fuel (c c' : config record) evs rep :
  gen_next w paths ignore_logs num_procs fuel c = Some (c', evs, rep) →
  match rep with
  | Value r =>
      (∃ f pre, evs = pre ++ [EvYield f r] ∧ yields pre = [])
      ∧ ∃ rest, c'.1 = PFor rest
  | _ => yields evs = [] ∧ done_ctl c'.1 = true
  end.
Proof.
  revert c evs. induction fuel as [|fuel IH]; intros c evs Hnext; [done|].
  cbn [gen_next] in Hnext.
  assert (done_ctl c.1 = true ∧ evs = [] ∧ rep = StopIteration ∧ c' = c
          ∨ done_ctl c.1 = false
            ∧ match step w paths ignore_logs num_procs c with
              | (c1, evs1) =>
                  match yielded evs1 with
                  | Some r => Some (c1, evs1, Value r)
                  | None =>
                      match c1.1 with
                      | PDone (Some e) => Some (c1, evs1, Raise e)
                      | PDone None => Some (c1, evs1, StopIteration)
                      | _ =>
                          match gen_next w paths ignore_logs num_procs fuel c1 with
                          | Some (c2, evs2, rep) => Some (c2, evs1 ++ evs2, rep)
                          | None => None
                          end
                      end
                  end
              end = Some (c', evs, rep)) as [(Hd & -> & -> & ->)|[Hd Hrun]].
  { destruct c as [[]]; cbn [fst] in *;
      first [right; by split | left; by injection Hnext as <- <- <-]. }
  { by split. }
  clear Hnext.
  destruct (step w paths ignore_logs num_procs c) as [c1 evs1] eqn:Hstep.
  destruct (step_yield w paths ignore_logs num_procs _ _ _ Hstep)
    as [(f & r & rest & -> & Hctl)|[Hy Hys]].
  - cbn [yielded] in Hrun. injection Hrun as <- <- <-.
    split; [by exists f, []|by exists rest].
  - rewrite Hy in Hrun.
    assert (done_ctl c1.1 = true
            ∧ Some (c1, evs1, match c1.1 with
                              | PDone (Some e) => Raise e
                              | _ => StopIteration
                              end) = Some (c', evs, rep)
            ∨ done_ctl c1.1 = false
              ∧ match gen_next w paths ignore_logs num_procs fuel c1 with
                | Some (c2, evs2, rep) => Some (c2, evs1 ++ evs2, rep)
                | None => None
                end = Some (c', evs, rep)) as [[Hd1 Heq]|[Hd1 Hrec]].
    { destruct c1 as [[| | | |[e|]] st1]; cbn [fst] in *;
        first [right; by split | left; by split]. }
    + injection Heq as <- <- <-. by destruct c1 as [[| | | |[e|]] st1].
    + destruct (gen_next w paths ignore_logs num_procs fuel c1)
        as [[[c2 evs2] rep2]|] eqn:Hrest; [|done].
      injection Hrec as <- <- <-. specialize (IH c1 evs2 Hrest).
      destruct rep2 as [r| |e].
      * destruct IH as [(f & pre & -> & Hpre) Hctl]. split; [|done].
        exists f, (evs1 ++ pre). rewrite app_assoc. split; [done|].
        by rewrite yields_app, Hys, Hpre.
      * destruct IH as [Hev Hctl]. split; [|done].
        by rewrite yields_app, Hys, Hev.
      * destruct IH as [Hev Hctl]. split; [|done].
        by rewrite yields_app, Hys, Hev.
Qed.

(** ** [normpath] and [abspath] *)

Lemma startswith_slash (p : string) :
  startswith "/" p = true ↔ ∃ s, p = String "/"%char s.
Proof.
  destruct p as [|a s]; cbn [startswith]; [naive_solver|].
  rewrite andb_true_r. split.
  - intros ->%Ascii.eqb_eq. by exists s.
  - by intros [s' [= -> _]].
Qed.

Lemma startswith_cons a (p : string) b (s : string) :
  startswith (String a p) (String b s) = Ascii.eqb a b && startswith p s.
Proof. done. Qed.

Lemma canonical_head (comps : list string) :
  canonical comps → startswith "/" (String.concat "/" comps) = false.
Proof.
  intros Hc. destruct Hc as [|c rest (Hne & _ & _ & Hl) _]; [done|].
  destruct c as [|a c]; [done|]. apply lacks_cons in Hl as [Ha _].
  assert (startswith "/" (String a c) = false) as Hs.
  { cbn [startswith]. by destruct (Ascii.eqb_spec "/"%char a). }
  destruct rest; [done|].
  cbn [String.concat].
  change (String a c +:+ ?t) with (String a (c +:+ t)).
  cbn [startswith]. by destruct (Ascii.eqb_spec "/"%char a).
Qed.

Lemma norm_comp_canonical n (stack : list string) (comp : string) :
  n ≠ 0 → lacks "/"%char comp → canonical stack →
  canonical (norm_comp n stack comp).
Proof.
  intros Hn Hl Hs. unfold norm_comp.
  destruct (String.eqb_spec comp EmptyString) as [|H1]; [done|].
  destruct (String.eqb_spec comp ".") as [|H2]; [done|]. cbn [orb].
  destruct (String.eqb_spec comp "..") as [|H3]; cbn [negb orb].
  - destruct (Nat.eqb_spec n 0) as [|_]; [done|]. cbn [andb orb].
    destruct Hs as [|last popped (_ & _ & Hlast & _) Hp]; [constructor|].
    destruct (String.eqb_spec last "..") as [|_]; done.
  - by constructor.
Qed.

Lemma norm_fold_canonical n (comps stack : list string) :
  n ≠ 0 → Forall (lacks "/"%char) comps → canonical stack →
  canonical (fold_left (norm_comp n) comps stack).
Proof.
  intros Hn Hc. revert stack.
  induction Hc as [|c comps Hl _ IH]; intros stack Hs; [done|].
  cbn [fold_left]. by apply IH, norm_comp_canonical.
Qed.

Lemma norm_fold_push n (comps stack : list string) :
  canonical comps → fold_left (norm_comp n) comps stack = rev comps ++ stack.
Proof.
  intros Hc. revert stack.
  induction Hc as [|c comps (H1 & H2 & H3 & _) _ IH]; intros stack; [done|].
  cbn [fold_left rev]. rewrite IH, <- app_assoc. f_equal.
  unfold norm_comp.
  destruct (String.eqb_spec c EmptyString) as [|_]; [done|].
  destruct (String.eqb_spec c ".") as [|_]; [done|].
  by destruct (String.eqb_spec c "..") as [|_].
Qed.

Lemma split_concat (comps : list string) :
  comps ≠ [] → Forall (lacks "/"%char) comps →
  split_on "/"%char (String.concat "/" comps) = comps.
Proof.
  intros Hne Hc. induction Hc as [|c comps Hl Hc IH]; [done|].
  destruct comps as [|c' comps]; [by apply split_on_lacks|].
  change (String.concat "/" (c :: c' :: comps))
    with (c +:+ String "/"%char (String.concat "/" (c' :: comps))).
  rewrite split_on_app, split_on_lacks, IH; done.
Qed.

Lemma initial_slashes_canonical n (comps : list string) :
  n = 1 ∨ n = 2 → canonical comps →
  initial_slashes (slashes n +:+ String.concat "/" comps) = n.
Proof.
  intros Hn Hc. pose proof (canonical_head comps Hc) as Hh.
  unfold initial_slashes.
  destruct Hn as [-> | ->].
  - change (slashes 1 +:+ ?t) with (String "/"%char t).
    rewrite !startswith_cons, Hh. done.
  - change (slashes 2 +:+ ?t) with (String "/"%char (String "/"%char t)).
    rewrite !startswith_cons, Hh. done.
Qed.

Lemma slashes_append n (t : string) :
  slashes (S n) +:+ t = String "/"%char (slashes n +:+ t).
Proof. done. Qed.

Lemma canonical_lacks (comps : list string) :
  canonical comps → Forall (lacks "/"%char) comps.
Proof. intros Hc. eapply Forall_impl; [exact Hc|]. naive_solver. Qed.

(** [normpath] leaves a canonical absolute path as it is. *)
Lemma normpath_fixed n (comps : list string) :
  n = 1 ∨ n = 2 → canonical comps →
  normpath (slashes n +:+ String.concat "/" comps)
  = slashes n +:+ String.concat "/" comps.
Proof.
  intros Hn Hc. unfold normpath.
  rewrite (initial_slashes_canonical n comps Hn Hc).
  assert (∀ t, String.eqb (slashes n +:+ t) EmptyString = false) as Hnon.
  { intros t. by destruct Hn as [-> | ->]. }
  rewrite Hnon.
  assert (fold_left (norm_comp n)
            (split_on "/"%char (slashes n +:+ String.concat "/" comps)) []
          = rev comps) as ->.
  { assert (fold_left (norm_comp n)
              (split_on "/"%char (String.concat "/" comps)) [] = rev comps) as Hf.
    { destruct comps as [|c comps]; [done|].
      rewrite split_concat by (done || by apply canonical_lacks).
      by rewrite norm_fold_push, app_nil_r. }
    destruct Hn as [-> | ->]; rewrite !slashes_append;
      cbn [slashes split_on fold_left];
      change (EmptyString +:+ ?t) with t; by rewrite ?Ascii.eqb_refl. }
  by rewrite rev_involutive, Hnon.
Qed.

(** [normpath] of an absolute path is a canonical absolute path. *)
Lemma normpath_abs (p : string) :
  startswith "/" p = true →
  ∃ n comps, (n = 1 ∨ n = 2) ∧ canonical comps
             ∧ normpath p = slashes n +:+ String.concat "/" comps.
Proof.
  intros Hp. assert (initial_slashes p = 1 ∨ initial_slashes p = 2) as Hn.
  { unfold initial_slashes. rewrite Hp.
    destruct (startswith "//" p && negb (startswith "///" p)); auto. }
  exists (initial_slashes p),
    (rev (fold_left (norm_comp (initial_slashes p)) (split_on "/"%char p) [])).
  split_and!; [done| |].
  - unfold canonical. apply Forall_rev.
    apply norm_fold_canonical; [lia|apply split_on_parts|constructor].
  - unfold normpath. apply startswith_slash in Hp as [s ->].
    cbn [String.eqb].
    set (n := initial_slashes _) in *. set (t := String.concat _ _).
    by destruct Hn as [-> | ->].
Qed.

Lemma os_path_abspath_abs (cwd path : string) :
  startswith "/" cwd = true →
  ∃ p, startswith "/" p = true ∧ os_path_abspath cwd path = normpath p.
Proof.
  intros Hcwd. unfold os_path_abspath, os_path_join.
  destruct (startswith "/" path) eqn:Hp; [by exists path|].
  apply startswith_slash in Hcwd as [s ->].
  destruct (_ || _); eexists; (split; [|done]); done.
Qed.

Lemma after_first_app c (l1 l2 : list ascii) :
  c ∉ l1 → after_first c (l1 ++ c :: l2) = Some l2.
Proof.
  induction l1 as [|a l1 IH]; cbn [app after_first].
  - by rewrite Ascii.eqb_refl.
  - intros [Ha Hl]%not_elem_of_cons.
    destruct (Ascii.eqb_spec a c) as [|_]; [done|]. by apply IH.
Qed.

(** The parent of a path: what stands before its last component. *)
Lemma rsplit_head_parent (d f : string) :
  lacks "/"%char f → rsplit_head "/"%char (d +:+ "/" +:+ f) = d.
Proof.
  intros Hf. unfold rsplit_head. rewrite !rev_chars_app.
  change (rev_chars "/") with ["/"%char].
  rewrite <- app_assoc. cbn [app].
  rewrite after_first_app.
  - unfold rev_chars. by rewrite rev_involutive, String.string_of_list_ascii_of_string.
  - unfold rev_chars. intros Hin%list_elem_of_In%in_rev%list_elem_of_In. done.
Qed.

Section Abspath.

Context {record : Type}.
Implicit Types (w : World record).

(** X10: with an absolute working directory, whatever [abspath] returns is
    an absolute path in canonical form (one or two leading slashes, then
    components that are not empty, [.] or [..], separated by single
    slashes and with no slash at the end), and [abspath] maps it to
    itself without looking at the cluster or changing the cached home
    directory. *)
Theorem abspath_canonical_fixed_point w hadoopy_ls cwd home path r home' :
  startswith "/" cwd = true →
  abspath w hadoopy_ls cwd home path = (ret r, home') →
  (∃ n comps, (n = 1 ∨ n = 2) ∧ canonical comps
              ∧ r = slashes n +:+ String.concat "/" comps)
  ∧ ∀ (w' : World record) hadoopy_ls' cwd' home'',
      abspath w' hadoopy_ls' cwd' home'' r = (ret r, home'').
Proof.
  intros Hcwd Habs.
  assert (∃ x, r = os_path_abspath cwd x) as [x ->].
  { unfold abspath in Habs. destruct path as [|c s]; [done|].
    destruct (Ascii.eqb c "/"); [injection Habs as <- _; eauto|].
    destruct home as [h|]; [injection Habs as <- _; eauto|].
    destruct (hadoopy_ls ".") as [[|first l]|[]]; try done;
      [injection Habs as <- _; eauto|by destruct (negb _)]. }
  destruct (os_path_abspath_abs cwd x Hcwd) as (p & Hp & ->).
  destruct (normpath_abs p Hp) as (n & comps & Hn & Hc & ->).
  split; [by exists n, comps|].
  intros w' hls' cwd' home''. unfold abspath.
  assert (∃ t, slashes n +:+ String.concat "/" comps = String "/"%char t)
    as [t Ht] by (destruct Hn as [-> | ->]; eauto).
  rewrite Ht. cbn [Ascii.eqb Bool.eqb andb]. rewrite <- Ht.
  unfold os_path_abspath. rewrite Ht at 1. cbn [startswith Ascii.eqb Bool.eqb andb].
  by rewrite normpath_fixed.
Qed.

(** X11: the home directory [abspath] resolves a relative path against is
    the parent of the first path that [ls('.')] returns; once it is cached
    every relative path is resolved against it without asking the cluster
    again, whatever the cluster holds by then. *)
Theorem abspath_home_cached w cwd path count entries meta d f rest :
  path ≠ EmptyString →
  startswith "/" path = false →
  rcode (run_cmd w "hadoop fs -ls .") = 0%Z →
  p_stdout (run_cmd w "hadoop fs -ls .") = listing_text count entries →
  (∀ n, count = Some n → n ≠ EmptyString ∧ all_digits n) →
  Forall (λ e, lacks "010"%char e.1 ∧ lacks "010"%char e.2
               ∧ lacks " "%char e.2 ∧ startswith "/" e.2 = true) entries →
  entries = (meta, d +:+ "/" +:+ f) :: rest →
  lacks "/"%char f →
  abspath w (ls w) cwd None path
  = (ret (os_path_abspath cwd (os_path_join d path)), Some d)
  ∧ ∀ (w' : World record) hadoopy_ls' path',
      path' ≠ EmptyString → startswith "/" path' = false →
      abspath w' hadoopy_ls' cwd (Some d) path'
      = (ret (os_path_abspath cwd (os_path_join d path')), Some d).
Proof.
  intros Hne Hrel Hrc Hout Hcount Hok -> Hf.
  assert (∀ (w' : World record) hls' home p, p ≠ EmptyString →
            startswith "/" p = false →
            abspath w' hls' cwd home p
            = match home with
              | Some h => (ret (os_path_abspath cwd (os_path_join h p)), home)
              | None =>
                  match hls' "." with
                  | inr (IOError msg) =>
                      if negb (exists_ w' ".") then (raise no_home, None)
                      else (raise (IOError msg), None)
                  | inr e => (raise e, None)
                  | inl [] => (raise IndexError, None)
                  | inl (first :: _) =>
                      (ret (os_path_abspath cwd
                              (os_path_join (rsplit_head "/"%char first) p)),
                       Some (rsplit_head "/"%char first))
                  end
              end) as Hunf.
  { intros w' hls' home p Hp Hs. unfold abspath. destruct p as [|c s]; [done|].
    cbn [startswith] in Hs. rewrite andb_true_r in Hs.
    rewrite (Ascii.eqb_sym c), Hs. done. }
  split; [|intros w' hls' path' Hne' Hrel'; by rewrite Hunf].
  rewrite Hunf by done.
  assert (ls w "." = ret ((meta, d +:+ "/" +:+ f) :: rest).*2) as ->.
  { rewrite (ls_fields w "." count _ Hrc Hout Hcount).
    - f_equal. apply last_field_paths.
      eapply Forall_impl; [exact Hok|]. naive_solver.
    - eapply Forall_impl; [exact Hok|]. intros [m p] (Hm & Hp & Hsp & Habs).
      split_and!; [done..|]. by apply last_field_absolute. }
  unfold ret. cbn [fmap list_fmap snd]. by rewrite rsplit_head_parent.
Qed.

(** X12: with no home directory cached, a relative path and [ls('.')]
    failing, [abspath] raises the fixed error of a missing home directory
    when the test for [.] fails too, and the error of [ls] itself when [.]
    exists; with an empty listing of [.] it raises [IndexError].  Nothing
    is cached in either case. *)
Theorem abspath_home_errors w cwd path :
  path ≠ EmptyString →
  startswith "/" path = false →
  (rcode (run_cmd w "hadoop fs -ls .") ≠ 0%Z →
   abspath w (ls w) cwd None path
   = (raise (if exists_ w "." then
               IOError ("Ran[hadoop fs -ls .]: "
                        +:+ p_stderr (run_cmd w "hadoop fs -ls ."))
             else no_home), None))
  ∧ (rcode (run_cmd w "hadoop fs -ls .") = 0%Z →
     p_stdout (run_cmd w "hadoop fs -ls .") = EmptyString →
     abspath w (ls w) cwd None path = (raise IndexError, None)).
Proof.
  intros Hne Hrel. unfold abspath. destruct path as [|c s]; [done|].
  cbn [startswith] in Hrel. rewrite andb_true_r in Hrel.
  rewrite (Ascii.eqb_sym c), Hrel. split.
  - intros Hrc. unfold ls. rewrite checked_nonzero by done.
    by destruct (exists_ w ".").
  - intros Hrc Hout. rewrite ls_of_stdout by done.
    change ("hadoop fs -ls " +:+ ".") with "hadoop fs -ls .". by rewrite Hout.
Qed.

(** X13: [put] and [get] paste their two paths into the command line as
    they are, with one space between them: the command run, and so the
    outcome, is the same wherever a space splits the text into the two
    arguments. *)
Theorem put_get_unquoted w (a b c : string) :
  put w (a +:+ " " +:+ b) c = put w a (b +:+ " " +:+ c)
  ∧ get w (a +:+ " " +:+ b) c = get w a (b +:+ " " +:+ c).
Proof.
  unfold put, get. by rewrite !append_assoc_str.
Qed.

End Abspath.

(** ** [ls]: the header pattern, and what a path returned can hold *)

Lemma drop_digits_spec (l : list ascii) k z :
  drop_digits l = (k, z) →
  ∃ ds, l = ds ++ z ∧ length ds = k ∧ Forall (λ a, is_digit a = true) ds.
Proof.
  revert k z. induction l as [|a l IH]; intros k z; cbn [drop_digits].
  - intros [= <- <-]. by exists [].
  - destruct (is_digit a) eqn:Ha.
    + destruct (drop_digits l) as [n r]. intros [= <- <-].
      destruct (IH n r eq_refl) as (ds & -> & <- & Hds).
      exists (a :: ds). split_and!; [done..|]. by constructor.
    + intros [= <- <-]. by exists [].
Qed.

Lemma rev_chars_of_rev (l : list ascii) :
  rev_chars (String.string_of_list_ascii (rev l)) = l.
Proof.
  unfold rev_chars.
  by rewrite String.list_ascii_of_string_of_list_ascii, rev_involutive.
Qed.

Lemma rev_chars_inj (a b : string) : rev_chars a = rev_chars b → a = b.
Proof.
  unfold rev_chars. intros H.
  apply (f_equal (@rev ascii)) in H. rewrite !rev_involutive in H.
  apply (f_equal String.string_of_list_ascii) in H.
  by rewrite !String.string_of_list_ascii_of_string in H.
Qed.

(** X14: the lines [ls] takes for the header of a listing are exactly those
    that end with the word Found, a space, one or more decimal digits, a
    space and the word items, whatever stands before. *)
Theorem found_line_iff (x : string) :
  found_line x = true ↔
  ∃ pre n, x = pre +:+ "Found " +:+ n +:+ " items"
           ∧ n ≠ EmptyString ∧ all_digits n.
Proof.
  unfold found_line. split.
  - destruct (strip_prefix _ (rev_chars x)) as [y|] eqn:Hy; [|done].
    apply strip_prefix_Some in Hy.
    destruct (drop_digits y) as [k z] eqn:Hk.
    apply drop_digits_spec in Hk as (ds & -> & <- & Hds).
    destruct ds as [|a ds]; [done|]. cbn [length].
    destruct (strip_prefix _ z) as [q|] eqn:Hq; [|done]. intros _.
    apply strip_prefix_Some in Hq as ->.
    exists (String.string_of_list_ascii (rev q)),
      (String.string_of_list_ascii (rev (a :: ds))).
    split_and!.
    + apply rev_chars_inj. rewrite Hy, !rev_chars_app, !rev_chars_of_rev.
      by rewrite <- !app_assoc.
    + intros Hn. apply (f_equal rev_chars) in Hn.
      by rewrite rev_chars_of_rev in Hn.
    + unfold all_digits.
      rewrite String.list_ascii_of_string_of_list_ascii. by apply Forall_rev.
  - intros (pre & n & -> & Hne & Hn).
    rewrite !rev_chars_app, <- !app_assoc, strip_prefix_app.
    rewrite drop_digits_app; [| |done].
    + destruct n as [|a n]; [done|]. unfold rev_chars at 1.
      cbn [String.list_ascii_of_string rev].
      rewrite length_app. cbn [length]. rewrite Nat.add_1_r.
      by rewrite strip_prefix_app.
    + unfold rev_chars. by apply Forall_rev.
Qed.

Lemma split_on_keeps_lacks c c' (s : string) :
  lacks c s → Forall (lacks c) (split_on c' s).
Proof.
  induction s as [|x s IH]; cbn [split_on].
  - intros _. constructor; [|done]. unfold lacks. apply not_elem_of_nil.
  - intros [Hx Hs]%lacks_cons. specialize (IH Hs).
    destruct (Ascii.eqb x c').
    + constructor; [|done]. unfold lacks. apply not_elem_of_nil.
    + destruct (split_on c' s) as [|h t]; [|inversion IH; subst];
        constructor; try done; apply lacks_cons; split; try done.
      unfold lacks. apply not_elem_of_nil.
Qed.

Lemma last_str_Forall (P : string → Prop) (l : list string) :
  l ≠ [] → Forall P l → P (last_str l).
Proof.
  intros Hne Hl. unfold last_str.
  induction Hl as [|x l Hx Hl IH]; [done|].
  destruct l as [|y l]; [done|]. by apply IH.
Qed.

(** X15: whatever [hadoop fs -ls] prints, no path that [ls] returns holds
    a space or a newline, and [ls] returns as many paths as the output has
    lines that are neither empty nor a header. *)
Theorem ls_paths_no_blank {record : Type} (w : World record) path out :
  ls w path = ret out →
  Forall (λ x, lacks " "%char x ∧ lacks "010"%char x) out
  ∧ length out
    = length (List.filter ls_keeps
                (split_on "010"%char
                   (p_stdout (run_cmd w ("hadoop fs -ls " +:+ path))))).
Proof.
  intros Hls.
  destruct (Z.eq_dec (rcode (run_cmd w ("hadoop fs -ls " +:+ path))) 0)
    as [Hrc|Hrc].
  - rewrite ls_of_stdout in Hls by done. injection Hls as <-.
    split; [|by rewrite length_map].
    apply Forall_map, List.Forall_forall. intros line [Hin _]%List.filter_In.
    pose proof (split_on_parts "010"%char
                  (p_stdout (run_cmd w ("hadoop fs -ls " +:+ path)))) as Hnl.
    rewrite List.Forall_forall in Hnl. specialize (Hnl line Hin).
    unfold last_field. split.
    + apply last_str_Forall; [apply split_on_nonempty|apply split_on_parts].
    + apply last_str_Forall; [apply split_on_nonempty|].
      by apply split_on_keeps_lacks.
  - unfold ls in Hls. by rewrite checked_nonzero in Hls.
Qed.

(** * The second cluster at work *)

(** Solves the side conditions on a listing given in full. *)
Ltac listing_ok :=
  unfold Home.home_entries, Home.shared_entries, Home.slash_entries,
    Home.found_entries;
  repeat constructor; cbn [fst snd]; try reflexivity;
  unfold Home.meta; lacks_literal.

Ltac header_ok :=
  let n := fresh "n" in
  intros n [= <-]; split; [done|];
  unfold all_digits; cbn [String.list_ascii_of_string]; repeat constructor.

(** The home directory is listed as it stands. *)
Lemma ls_round_trip_sample :
  ls Home.world "." = ret ["/user/alice/data"; "/user/alice/logs"].
Proof.
  apply (ls_round_trip Home.world "." (Some "2") Home.home_entries);
    [reflexivity|reflexivity|header_ok|listing_ok].
Defined.

(** The file [my notes] of [/shared] is listed as [notes]; of [/x] the
    file [Found 3 items] is not listed and [my items] is listed as
    [items]. *)
Lemma ls_cuts_at_last_space_sample :
  ls Home.world "/shared" = ret ["notes"]
  ∧ ls Home.world "/x" = ret ["items"]
  ∧ last_field ("/shared/my" +:+ " " +:+ "notes") = "notes".
Proof.
  destruct (ls_cuts_at_last_space Home.world "/shared" (Some "1")
              Home.shared_entries) as (Hls & Hcut & _);
    [reflexivity|reflexivity|header_ok|listing_ok|].
  destruct (ls_cuts_at_last_space Home.world "/x" (Some "2")
              Home.found_entries) as (Hx & _ & _);
    [reflexivity|reflexivity|header_ok|listing_ok|].
  split_and!; [exact Hls|exact Hx|]. apply Hcut. lacks_literal.
Defined.

(** The log lines of the client are dropped, the error lines kept. *)
Lemma cleaned_stderr_filters_sample :
  _cleaned_hadoop_stderr Home.stderr_lines
  = (["put: Target /out already exists";
      "11/01/01 10:00:02 ERROR fs.FsShell: failed"], None).
Proof.
  refine (proj1 (cleaned_stderr_filters Home.stderr_lines _)).
  unfold Home.stderr_lines, has_level. repeat constructor; vm_compute; lia.
Defined.

(** A line of two fields ends the iteration with [IndexError]; the line
    after it is not looked at. *)
Lemma cleaned_stderr_short_line_sample :
  _cleaned_hadoop_stderr
    (["11/01/01 10:00:02 ERROR fs.FsShell: failed";
      "11/01/01 10:00:03 INFO fs.FsShell: retrying"]
     ++ "java.io.IOException: failed"
     :: ["put: Target /out already exists"])
  = (["11/01/01 10:00:02 ERROR fs.FsShell: failed"], Some IndexError).
Proof.
  refine (cleaned_stderr_short_line
            ["11/01/01 10:00:02 ERROR fs.FsShell: failed";
             "11/01/01 10:00:03 INFO fs.FsShell: retrying"]
            ["put: Target /out already exists"]
            "java.io.IOException: failed" _ _).
  - unfold has_level. repeat constructor; vm_compute; lia.
  - vm_compute. lia.
Defined.

(** [/t] lists a path that ends in a slash. *)
Lemma readtb_empty_basename_sample :
  (∃ st,
     gen_next Home.world (PathStr "/t") true 10 2
       (readtb (PathStr "/t") true 10).1
     = Some ((PDone (Some IndexError), st), [EvLs "/t"], Raise IndexError))
  ∧ root_paths Home.world false "/t" = ret ["/t/part-0"; "/t/sub/"].
Proof.
  apply (readtb_empty_basename Home.world (PathStr "/t") 9 "/t" []
           ["/t/part-0"; "/t/sub/"] "/t/sub/" 0 eq_refl eq_refl).
  - apply list_elem_of_In. simpl. tauto.
  - right. by exists "/t/sub".
Defined.

(** The first request on [/d]: the listing, the source of [/d/part-0], and
    its first record. *)
Lemma readtb_one_record_per_request_sample :
  ∃ c' pre f,
    gen_next (Sample.world Sample.all_ready Sample.failing_loader)
      (PathStr "/d") true 10 20 (readtb (PathStr "/d") true 10).1
    = Some (c', pre ++ [EvYield f 1], Value 1)
    ∧ yields pre = [].
Proof.
  destruct (gen_next (Sample.world Sample.all_ready Sample.failing_loader)
              (PathStr "/d") true 10 20 (readtb (PathStr "/d") true 10).1)
    as [[[c' evs] rep]|] eqn:Hnext; [|vm_compute in Hnext; discriminate].
  assert (rep = Value 1) as ->.
  { vm_compute in Hnext. by injection Hnext as _ _ <-. }
  destruct (readtb_one_record_per_request _ _ _ _ _ _ _ _ _ Hnext)
    as [(f & pre & -> & Hpre) _].
  by exists c', pre, f.
Defined.

(** A path with doubled slashes, a [..] and a slash at the end. *)
Lemma abspath_canonical_fixed_point_sample :
  (∃ n comps, (n = 1 ∨ n = 2) ∧ canonical comps
              ∧ "/a/c" = slashes n +:+ String.concat "/" comps)
  ∧ ∀ (w' : World nat) hadoopy_ls' cwd' home'',
      abspath w' hadoopy_ls' cwd' home'' "/a/c" = (ret "/a/c", home'').
Proof.
  apply (abspath_canonical_fixed_point Home.world (ls Home.world) "/work" None
           "/a//b/../c/" "/a/c" None eq_refl eq_refl).
Defined.

(** The home directory is the parent of [/user/alice/data]. *)
Lemma abspath_home_cached_sample :
  abspath Home.world (ls Home.world) "/work" None "out/part-0"
  = (ret "/user/alice/out/part-0", Some "/user/alice")
  ∧ ∀ (w' : World nat) hadoopy_ls' path',
      path' ≠ EmptyString → startswith "/" path' = false →
      abspath w' hadoopy_ls' "/work" (Some "/user/alice") path'
      = (ret (os_path_abspath "/work" (os_path_join "/user/alice" path')),
         Some "/user/alice").
Proof.
  apply (abspath_home_cached Home.world "/work" "out/part-0" (Some "2")
           Home.home_entries Home.meta "/user/alice" "data"
           [(Home.meta, "/user/alice/logs")]);
    [done|reflexivity|reflexivity|reflexivity|header_ok|listing_ok
    |reflexivity|lacks_literal].
Defined.

(** On the first cluster [.] cannot be listed and does not exist. *)
Lemma abspath_home_errors_sample :
  abspath (Sample.world Sample.all_ready Sample.failing_loader)
    (ls (Sample.world Sample.all_ready Sample.failing_loader)) "/work" None
    "out"
  = (raise no_home, None).
Proof.
  refine (proj1 (abspath_home_errors
                   (Sample.world Sample.all_ready Sample.failing_loader)
                   "/work" "out" _ eq_refl) _); done.
Defined.

(** The one path listed for [/shared]. *)
Lemma ls_paths_no_blank_sample :
  Forall (λ x, lacks " "%char x ∧ lacks "010"%char x) ["notes"]
  ∧ length ["notes"]
    = length (List.filter ls_keeps
                (split_on "010"%char
                   (p_stdout (run_cmd Home.world ("hadoop fs -ls " +:+ "/shared"))))).
Proof. apply (ls_paths_no_blank Home.world "/shared" ["notes"] eq_refl). Defined.
